(** * Volume-fraction compositing of the model-based volume creator

    A shallow embedding of [ModelBasedAdapter.create_simulation_volume]
    (simpa/core/simulation_modules/volume_creation_module/model_based_adapter.py).

    Conventions of the embedding.
    - A grid-shaped tensor is the list of its entries in voxel order; a boolean
      tensor is a list of [bool].  Two tensors have the same shape when they
      have the same length.
    - Tensor entries are exact rationals ([Q]): the rounding of the source's
      single-precision arithmetic is not modelled, every comparison and every
      branch is.
    - Exceptions are values of [exception]; a computation that may raise
      returns a [result]. *)

From Stdlib Require Import Bool Arith ZArith QArith Qminmax Qabs String List Lia Lqa.
Import ListNotations.

Set Implicit Arguments.

(** ** Exceptions and the error monad *)

Inductive exception : Type :=
| ValueError (msg : string)
| AssertionError (msg : string)
| TensorError        (* raised by the tensor library: operands or index of a
                        different shape, or a value that is no number in an
                        index assignment *)
| AllocationError.   (* the allocator refuses the grid or the key set *)

Inductive result (A : Type) : Type :=
| Ok (a : A)
| Raise (e : exception).

Arguments Ok {A} a.
Arguments Raise {A} e.

Definition bind {A B : Type} (r : result A) (k : A -> result B) : result B :=
  match r with
  | Ok a => k a
  | Raise e => Raise e
  end.

Notation "x <- r ;; k" := (bind r (fun x => k))
  (at level 61, r at next level, right associativity).
Notation "' pat <- r ;; k" := (bind r (fun x => match x with pat => k end))
  (at level 61, pat pattern, r at next level, right associativity).

(** ** Tensors *)

Definition tensor := list Q.
Definition mask := list bool.

Definition Qlt_bool (x y : Q) : bool := negb (Qle_bool y x).

(** Elementwise binary operation on two tensors of one shape. *)
Fixpoint zipWith {A B C : Type} (f : A -> B -> C) (a : list A) (b : list B) : list C :=
  match a, b with
  | x :: a', y :: b' => f x y :: zipWith f a' b'
  | _, _ => []
  end.

(** [t[m]]: the entries of [t] selected by the boolean tensor [m], in order. *)
Fixpoint masked_select {A : Type} (t : list A) (m : mask) : list A :=
  match t, m with
  | x :: t', b :: m' =>
      if b then x :: masked_select t' m' else masked_select t' m'
  | _, _ => []
  end.

(** [t[m] = v]: the entries of [v], in order, written to the selected places. *)
Fixpoint masked_assign {A : Type} (t : list A) (m : mask) (v : list A) : list A :=
  match t, m with
  | x :: t', b :: m' =>
      if b then
        match v with
        | y :: v' => y :: masked_assign t' m' v'
        | [] => x :: masked_assign t' m' []
        end
      else x :: masked_assign t' m' v
  | _, _ => t
  end.

(** [t[m] = c] for a scalar [c]. *)
Fixpoint masked_fill {A : Type} (t : list A) (m : mask) (c : A) : list A :=
  match t, m with
  | x :: t', b :: m' => (if b then c else x) :: masked_fill t' m' c
  | _, _ => t
  end.

(** [torch.any]. *)
Definition any (m : mask) : bool := existsb (fun b => b) m.

Definition zeros (n : nat) : tensor := repeat (0 : Q) n.

(** ** Structures and their properties *)

Definition key := string.

(** What [structure_properties[key]] can be: [None], a grid-shaped tensor, a
    number of one of the scalar types line 101 accepts ([float], [np.float64],
    [int], [np.int64]), or a value of any other type, a number of another
    type included, kept with the text [type(...)] prints for it. *)
Inductive prop_value : Type :=
| PNone
| PTensor (t : tensor)
| PScalar (x : Q)
| POther (type_repr : string).

Record global_settings : Type := {
  RANDOM_SEED : Z;
  DIM_VOLUME_X_MM : Q;
  DIM_VOLUME_Y_MM : Q;
  WAVELENGTH : Q
}.

Record structure : Type := {
  geometrical_volume : tensor;
  properties_for_wavelength : global_settings -> Q -> key -> prop_value
}.

(** ** The fraction compositor (lines 73-88) *)

(** [structure_volume_fractions > 0]. *)
Definition structure_indexes_mask (svf : tensor) : mask :=
  map (fun s => Qlt_bool 0 s) svf.

(** [global_volume_fractions < 1]. *)
Definition global_volume_fractions_mask (gvf : tensor) : mask :=
  map (fun g => Qlt_bool g 1) gvf.

Definition active_mask (gvf svf : tensor) : mask :=
  zipWith andb (structure_indexes_mask svf) (global_volume_fractions_mask gvf).

(** [added_volume_fraction <= 1 & mask].  [&] binds tighter than [<=], so the
    source compares [added_volume_fraction] with [1 & mask], which is 1 where
    the mask holds and 0 elsewhere. *)
Definition selector_at_most_1 (avf : tensor) (m : mask) : mask :=
  zipWith (fun a (b : bool) => Qle_bool a (if b then 1 else 0)) avf m.

Definition added_volume_fraction (gvf svf : tensor) : tensor :=
  let m := active_mask gvf svf in
  let avf := zipWith Qplus gvf svf in
  let sel := selector_at_most_1 avf m in
  let avf := masked_assign avf sel (masked_select svf sel) in
  let selector_more_than_1 := map (fun a => Qlt_bool 1 a) avf in
  if any selector_more_than_1 then
    let remaining_volume_fraction_to_fill :=
      map (fun g => 1 - g) (masked_select gvf selector_more_than_1) in
    let fraction_to_be_filled := masked_select svf selector_more_than_1 in
    masked_assign avf selector_more_than_1
      (zipWith Qmin remaining_volume_fraction_to_fill fraction_to_be_filled)
  else avf.

(** ** The property accumulator (lines 89-105) *)

Definition unsupported_type_message (type_repr : string) : string :=
  ("Unsupported type of structure property. Was " ++ type_repr ++ ".")%string.

Section Accumulator.

(** [Tags.DATA_FIELD_SEGMENTATION]; the tag table is not part of the
    sources at hand, so the tag is a parameter. *)
Variable segmentation_key : key.
Variable structure_properties : key -> prop_value.
Variable m : mask.
Variable avf : tensor.

(** [added_volume_fraction > max_added_fractions], met with the mask. *)
Definition segmentation_selector (maf : tensor) : mask :=
  zipWith andb (zipWith (fun a x => Qlt_bool x a) avf maf) m.

(** [volumes[key][mask] += added_volume_fraction[mask] * w], [w] being the
    selected entries of the property, already multiplied in. *)
Definition add_weighted (t : tensor) (weighted : tensor) : tensor :=
  masked_assign t m (zipWith Qplus (masked_select t m) weighted).

(** One pass of the body of [for key in volumes.keys()], on the field [t]
    stored under [k]; gives the new field and the new [max_added_fractions].
    Under the segmentation key the value is written as it is, without a test
    of its type: the index assignment takes a number, and the tensor library
    raises for a grid-shaped tensor (its shape is not that of the selection)
    and for a value that is no number.  A tensor property must have the
    shape of the mask it is indexed with. *)
Definition update_field (k : key) (t maf : tensor) : result (tensor * tensor) :=
  match structure_properties k with
  | PNone => Ok (t, maf)
  | v =>
      if String.eqb k segmentation_key then
        match v with
        | PScalar label =>
            let sel := segmentation_selector maf in
            Ok (masked_fill t sel label,
                masked_assign maf sel (masked_select avf sel))
        | _ => Raise TensorError
        end
      else
        match v with
        | PTensor p =>
            if Nat.eqb (length p) (length m) then
              Ok (add_weighted t
                    (zipWith Qmult (masked_select avf m) (masked_select p m)),
                  maf)
            else Raise TensorError
        | PScalar c =>
            Ok (add_weighted t (map (fun a => a * c) (masked_select avf m)), maf)
        | POther type_repr => Raise (ValueError (unsupported_type_message type_repr))
        | PNone => Ok (t, maf)
        end
  end.

(** The loop over the keys of [volumes], in the order of the dict; every
    key is visited once and its field replaced in place. *)
Fixpoint accumulate (vols : list (key * tensor)) (maf : tensor)
  : result (list (key * tensor) * tensor) :=
  match vols with
  | [] => Ok ([], maf)
  | (k, t) :: rest =>
      '(t', maf') <- update_field k t maf ;;
      '(rest', maf'') <- accumulate rest maf' ;;
      Ok ((k, t') :: rest', maf'')
  end.

End Accumulator.

(** ** One structure, then all of them (lines 68-107) *)

Record state : Type := {
  volumes : list (key * tensor);
  global_volume_fractions : tensor;
  max_added_fractions : tensor
}.

Section Compositor.

Variable segmentation_key : key.
Variable settings : global_settings.

(** The body of [for structure in priority_sorted_structures(...)].  The
    tensor library raises when the structure's volume has not the shape of
    the grid. *)
Definition compose_structure (st : state) (s : structure) : result state :=
  let structure_properties := properties_for_wavelength s settings (WAVELENGTH settings) in
  let svf := geometrical_volume s in
  let gvf := global_volume_fractions st in
  if Nat.eqb (length svf) (length gvf) then
    let m := active_mask gvf svf in
    let avf := added_volume_fraction gvf svf in
    '(vols, maf) <- accumulate segmentation_key structure_properties m avf
                      (volumes st) (max_added_fractions st) ;;
    Ok {| volumes := vols;
          global_volume_fractions :=
            masked_assign gvf m (zipWith Qplus (masked_select gvf m) (masked_select avf m));
          max_added_fractions := maf |}
  else Raise TensorError.

Fixpoint compose (st : state) (structures : list structure) : result state :=
  match structures with
  | [] => Ok st
  | s :: rest => st' <- compose_structure st s ;; compose st' rest
  end.

End Compositor.

(** ** The consistency validator (lines 109-111) *)

Definition tolerance : Q := 1 # 100000.

(** [(torch.abs(gvf[gvf > 1]) < 1e-5).any()]. *)
Definition consistency_violated (gvf : tensor) : bool :=
  any (map (fun g => Qlt_bool (Qabs g) tolerance)
           (masked_select gvf (map (fun g => Qlt_bool 1 g) gvf))).

Definition consistency_message : string :=
  "Invalid Molecular composition! The volume fractions of all molecules must beexactly 100%!".

Definition consistency_check (gvf : tensor) : result unit :=
  if consistency_violated gvf then Raise (AssertionError consistency_message)
  else Ok tt.

(** ** The output materializer (lines 113-117) *)

Inductive dtype : Type := float32 | float64.

(** A numpy array: host memory, with its element type.  Widening a
    single-precision entry to double precision keeps its value. *)
Record ndarray : Type := {
  nd_dtype : dtype;
  nd_data : list Q
}.

(** [t.cpu().numpy().astype(np.float64, copy=False)]. *)
Definition to_numpy_float64 (t : tensor) : ndarray :=
  {| nd_dtype := float64; nd_data := t |}.

Definition materialize (vols : list (key * tensor)) : list (key * ndarray) :=
  map (fun kt => (fst kt, to_numpy_float64 (snd kt))) vols.

(** ** The volume allocator *)

(** Modelled from the spec: [create_empty_volumes] of the adapter base class
    is not part of the sources at hand.  Given the grid dimensions and the
    property keys of the run it allocates a zero-initialized field for every
    key, and fails if a dimension is not positive or there is no key. *)
Definition create_empty_volumes (shape : nat * nat * nat) (keys : list key)
  : result (list (key * tensor) * nat * nat * nat) :=
  let '(x, y, z) := shape in
  if (Nat.eqb x 0 || Nat.eqb y 0 || Nat.eqb z 0)%bool then Raise AllocationError
  else match keys with
       | [] => Raise AllocationError
       | _ => Ok (map (fun k => (k, zeros (x * y * z))) keys, x, y, z)
       end.

(** ** The collaborators of the adapter *)

(** [self.component_settings], as far as the adapter reads and writes it.
    [Tags.X in settings and settings[Tags.X]] holds for [Some true] only. *)
Record component_settings (D : Type) : Type := {
  SIMULATE_DEFORMED_LAYERS : option bool;
  DEFORMED_LAYERS_SETTINGS : option D
}.

(** What the adapter calls and does not define: the process-wide random
    generator of numpy, the generator of the deformation, the tag of the
    segmentation field, the grid and the keys the allocator reads from the
    settings, and the provider of the structures, which may draw from the
    random generator. *)
Class Collaborators : Type := {
  rng_state : Type;
  deformation : Type;
  DATA_FIELD_SEGMENTATION : key;
  np_random_seed : Z -> rng_state;
  create_deformation_settings :
    rng_state -> list (Q * Q) -> Q -> Q -> Q -> deformation * rng_state;
  volume_shape : global_settings -> nat * nat * nat;
  property_tags : global_settings -> list key;
  priority_sorted_structures :
    rng_state -> global_settings -> component_settings deformation ->
    list structure * rng_state
}.

Section Adapter.

Context {C : Collaborators}.

(** The state outside the call: the random generator of the process and the
    settings object of the adapter, which the call may write to. *)
Record world : Type := {
  rng : rng_state;
  component : component_settings deformation
}.

(** Lines 50-60. *)
Definition prepare_deformation (gs : global_settings) (w : world) : world :=
  match SIMULATE_DEFORMED_LAYERS (component w) with
  | Some true =>
      match DEFORMED_LAYERS_SETTINGS (component w) with
      | None =>
          let r := np_random_seed (RANDOM_SEED gs) in
          let '(d, r') :=
            create_deformation_settings r
              [(0, DIM_VOLUME_X_MM gs); (0, DIM_VOLUME_Y_MM gs)] 3 0 1 in
          {| rng := r';
             component := {| SIMULATE_DEFORMED_LAYERS := Some true;
                             DEFORMED_LAYERS_SETTINGS := Some d |} |}
      | Some _ => w
      end
  | _ => w
  end.

(** Lines 62-65: the empty volumes and the two bookkeeping fields. *)
Definition initial_state (gs : global_settings) : result state :=
  '(vols, x, y, z) <- create_empty_volumes (volume_shape gs) (property_tags gs) ;;
  Ok {| volumes := vols;
        global_volume_fractions := zeros (x * y * z);
        max_added_fractions := zeros (x * y * z) |}.

(** Lines 62-107: allocation and the pass over the given structures. *)
Definition composite (gs : global_settings) (structures : list structure)
  : result state :=
  st <- initial_state gs ;;
  compose DATA_FIELD_SEGMENTATION gs st structures.

(** Lines 68-117, from the allocated state, on the given structures. *)
Definition run_pass (gs : global_settings) (st0 : state) (structures : list structure)
  : result (list (key * ndarray)) :=
  st <- compose DATA_FIELD_SEGMENTATION gs st0 structures ;;
  _ <- consistency_check (global_volume_fractions st) ;;
  Ok (materialize (volumes st)).

(** Lines 62-117, on the given structures. *)
Definition finish (gs : global_settings) (structures : list structure)
  : result (list (key * ndarray)) :=
  st0 <- initial_state gs ;;
  run_pass gs st0 structures.

(** The structures the provider yields in this call. *)
Definition provided_structures (gs : global_settings) (w : world) : list structure :=
  let w1 := prepare_deformation gs w in
  fst (priority_sorted_structures (rng w1) gs (component w1)).

Definition create_simulation_volume (gs : global_settings) (w : world)
  : result (list (key * ndarray)) * world :=
  let w1 := prepare_deformation gs w in
  match initial_state gs with
  | Raise e => (Raise e, w1)
  | Ok st0 =>
      let '(structures, r) := priority_sorted_structures (rng w1) gs (component w1) in
      (run_pass gs st0 structures, {| rng := r; component := component w1 |})
  end.

End Adapter.

(** ** The pass seen from one voxel *)

(** [torch.where(m, v, t)]: the entry of [v] where [m] holds, of [t] elsewhere.
    The source has no such call; its masked reads and writes amount to it. *)
Fixpoint tensor_where {A : Type} (m : mask) (v t : list A) : list A :=
  match m, v, t with
  | b :: m', y :: v', x :: t' => (if b then y else x) :: tensor_where m' v' t'
  | _, _, _ => []
  end.

(** The mask of line 77 at a voxel with cumulative occupancy [g] and
    structure occupancy [s]. *)
Definition active (g s : Q) : bool := Qlt_bool 0 s && Qlt_bool g 1.

(** The value lines 78-88 leave in [added_volume_fraction] at such a voxel. *)
Definition claimed (g s : Q) : Q :=
  let a := g + s in
  let a := if Qle_bool a (if active g s then 1 else 0) then s else a in
  if Qlt_bool 1 a then Qmin (1 - g) s else a.

(** Line 107 at such a voxel. *)
Definition occupy (g s : Q) : Q :=
  if active g s then g + claimed g s else g.

(** The number of voxels of the grid. *)
Definition voxels {C : Collaborators} (gs : global_settings) : nat :=
  let '(x, y, z) := volume_shape gs in (x * y * z)%nat.

(** ** Reading the state *)

(** [volumes[k]]. *)
Fixpoint field (k : key) (vols : list (key * tensor)) : option tensor :=
  match vols with
  | [] => None
  | (k', t) :: rest => if String.eqb k k' then Some t else field k rest
  end.

(** [volumes[k]] at voxel [i]. *)
Definition field_at (k : key) (vols : list (key * tensor)) (i : nat) : option Q :=
  match field k vols with
  | Some t => nth_error t i
  | None => None
  end.

(** Every field of [volumes] at voxel [i], key by key. *)
Definition voxel_view (i : nat) (vols : list (key * tensor)) : list (key * option Q) :=
  map (fun kt => (fst kt, nth_error (snd kt) i)) vols.

(** The same for the returned arrays. *)
Definition output_view (i : nat) (out : list (key * ndarray)) : list (key * option Q) :=
  map (fun ka => (fst ka, nth_error (nd_data (snd ka)) i)) out.

(** All fields of a state have the shape of one grid of [n] voxels. *)
Definition grid_shaped (n : nat) (st : state) : Prop :=
  length (global_volume_fractions st) = n /\
  length (max_added_fractions st) = n /\
  Forall (fun kt => length (snd kt) = n) (volumes st).

(** The fraction with which structure [s], processed in state [st], competes
    for the segmentation label of voxel [i]: its newly claimed fraction there,
    if it carries a segmentation property and the voxel is in its mask. *)
Definition bid (segmentation_key : key) (gs : global_settings)
    (st : state) (s : structure) (i : nat) : option Q :=
  let gvf := global_volume_fractions st in
  let svf := geometrical_volume s in
  match properties_for_wavelength s gs (WAVELENGTH gs) segmentation_key with
  | PNone => None
  | _ =>
      match nth_error (active_mask gvf svf) i with
      | Some true => nth_error (added_volume_fraction gvf svf) i
      | _ => None
      end
  end.

(** The bids of the structures of a pass, in processing order. *)
Fixpoint bids (segmentation_key : key) (gs : global_settings)
    (st : state) (structures : list structure) (i : nat) : list (option Q) :=
  match structures with
  | [] => []
  | s :: rest =>
      bid segmentation_key gs st s i ::
      match compose_structure segmentation_key gs st s with
      | Ok st' => bids segmentation_key gs st' rest i
      | Raise _ => []
      end
  end.

(** The bids of a pass that starts from the allocated state. *)
Definition pass_bids {C : Collaborators} (gs : global_settings)
    (structures : list structure) (i : nat) : list (option Q) :=
  match initial_state gs with
  | Ok st0 => bids DATA_FIELD_SEGMENTATION gs st0 structures i
  | Raise _ => []
  end.

(** [s.startswith(p)] and [p in s] on strings. *)
Fixpoint starts_with (p s : string) : bool :=
  match p, s with
  | EmptyString, _ => true
  | String a p', String b s' => (Ascii.eqb a b && starts_with p' s')%bool
  | String _ _, EmptyString => false
  end.

Fixpoint occurs_in (p s : string) : bool :=
  (starts_with p s ||
   match s with
   | EmptyString => false
   | String _ s' => occurs_in p s'
   end)%bool.

(** A property value the key loop can process under key [k] on a grid of [n]
    voxels: absent, a number, or for a key other than the segmentation key a
    grid-shaped tensor. *)
Definition supported (segmentation_key : key) (n : nat) (k : key) (v : prop_value) : bool :=
  match v with
  | PNone => true
  | PScalar _ => true
  | PTensor p => (negb (String.eqb k segmentation_key) && Nat.eqb (length p) n)%bool
  | POther _ => false
  end.

(** ** The value of a property at one voxel *)

(** The value of a property at voxel [i]: the number itself, or the entry
    of the tensor. *)
Definition property_at (v : prop_value) (i : nat) : option Q :=
  match v with
  | PScalar c => Some c
  | PTensor p => nth_error p i
  | PNone => None
  | POther _ => None
  end.

(** ** A phantom of two voxels *)

Module Phantom.

Local Open Scope string_scope.

Definition settings : global_settings :=
  {| RANDOM_SEED := 42; DIM_VOLUME_X_MM := 2; DIM_VOLUME_Y_MM := 1;
     WAVELENGTH := 800 |}.

(** A structure with the given occupancy, segmentation label and
    absorption; every other property is absent. *)
Definition layer (occupancy : tensor) (seg mua : prop_value) : structure :=
  {| geometrical_volume := occupancy;
     properties_for_wavelength := fun _ _ k =>
       if String.eqb k "seg" then seg
       else if String.eqb k "mua" then mua
       else PNone |}.

(** Two layers that overlap: both take 0.6 of the first voxel and all of
    the second. *)
Definition A : structure := layer [6 # 10; 1] (PScalar 1) (PScalar 2).
Definition B : structure := layer [6 # 10; 1] (PScalar 2) (PScalar 10).

(** A layer without absorption, and one whose absorption is a string. *)
Definition bare : structure := layer [3 # 10; 0] (PScalar 3) PNone.
Definition broken : structure :=
  layer [5 # 10; 1] (PScalar 4) (POther "<class 'str'>"%string).

(** A layer that takes half of the first voxel and all of the second. *)
Definition wide : structure := layer [5 # 10; 1] (PScalar 4) (PScalar 7).

(** A layer that asks for as much of the first voxel as [bare] does. *)
Definition twin : structure := layer [3 # 10; 1] (PScalar 9) (PScalar 1).

(** The state of the pass after [A], and after [A] and [B]. *)
Definition after_A : state :=
  {| volumes := [("mua", [12 # 10; 2]); ("seg", [1; 1])];
     global_volume_fractions := [6 # 10; 1];
     max_added_fractions := [6 # 10; 1] |}.

Definition after_AB : state :=
  {| volumes := [("mua", [520 # 100; 2]); ("seg", [1; 1])];
     global_volume_fractions := [100 # 100; 1];
     max_added_fractions := [6 # 10; 1] |}.

(** Collaborators that hand out the layers [A] and [B]; the random
    generator is a counter, and the provider draws from it: the parity of
    the counter decides which layer comes first. *)
#[export] Instance collaborators : Collaborators :=
  {| rng_state := Z;
     deformation := Z;
     DATA_FIELD_SEGMENTATION := "seg";
     np_random_seed := fun seed => seed;
     create_deformation_settings := fun r _ _ _ _ => (r, (r + 1)%Z);
     volume_shape := fun _ => (2, 1, 1)%nat;
     property_tags := fun _ => ["mua"; "seg"];
     priority_sorted_structures := fun r _ _ =>
       (if Z.even r then [A; B] else [B; A], (r + 1)%Z) |}.


End Phantom.

(** * Properties *)

(** ** Comparisons *)

Lemma Qlt_bool_iff (x y : Q) : Qlt_bool x y = true <-> x < y.
Proof.
  unfold Qlt_bool. rewrite negb_true_iff. split.
  - intros H. apply Qnot_le_lt. intros Hle.
    apply Qle_bool_iff in Hle. congruence.
  - intros H. destruct (Qle_bool y x) eqn:E; [|reflexivity].
    apply Qle_bool_iff in E. exfalso. exact (Qlt_not_le _ _ H E).
Qed.

Lemma Qlt_bool_false_iff (x y : Q) : Qlt_bool x y = false <-> y <= x.
Proof.
  unfold Qlt_bool. rewrite negb_false_iff. apply Qle_bool_iff.
Qed.

Lemma Qle_bool_false_iff (x y : Q) : Qle_bool x y = false <-> y < x.
Proof.
  rewrite <- Qlt_bool_iff. unfold Qlt_bool.
  destruct (Qle_bool x y); simpl; split; congruence.
Qed.

(** ** Tensors, entry by entry *)

Section Entries.

Context {A B C : Type}.

Lemma length_zipWith (f : A -> B -> C) a b :
  length a = length b -> length (zipWith f a b) = length a.
Proof.
  revert b. induction a as [|x a IH]; intros [|y b] H; simpl in *;
    try discriminate; auto.
Qed.

Lemma nth_error_zipWith (f : A -> B -> C) a b i :
  nth_error (zipWith f a b) i =
  match nth_error a i, nth_error b i with
  | Some x, Some y => Some (f x y)
  | _, _ => None
  end.
Proof.
  revert b i. induction a as [|x a IH]; intros [|y b] [|i]; simpl; auto;
    destruct (nth_error a i); reflexivity.
Qed.

Lemma length_masked_assign (t : list A) m v :
  length (masked_assign t m v) = length t.
Proof.
  revert m v. induction t as [|x t IH]; intros [|[] m] v; simpl; auto.
  destruct v; simpl; auto.
Qed.

Lemma length_masked_fill (t : list A) m c :
  length (masked_fill t m c) = length t.
Proof.
  revert m. induction t as [|x t IH]; intros [|b m]; simpl; auto.
Qed.

Lemma length_tensor_where m (v t : list A) :
  length m = length t -> length v = length t ->
  length (tensor_where m v t) = length t.
Proof.
  revert v t. induction m as [|b m IH]; intros [|y v] [|x t] Hm Hv;
    simpl in *; try discriminate; auto.
Qed.

Lemma nth_error_tensor_where m (v t : list A) i :
  nth_error (tensor_where m v t) i =
  match nth_error m i, nth_error v i, nth_error t i with
  | Some b, Some y, Some x => Some (if b then y else x)
  | _, _, _ => None
  end.
Proof.
  revert v t i. induction m as [|b m IH]; intros [|y v] [|x t] [|i]; simpl; auto;
    destruct (nth_error m i); try reflexivity;
    destruct (nth_error v i); reflexivity.
Qed.

(** Reading under a mask and writing back under the same mask. *)
Lemma masked_assign_select (t : list A) m v :
  length m = length t -> length v = length t ->
  masked_assign t m (masked_select v m) = tensor_where m v t.
Proof.
  revert m v. induction t as [|x t IH]; intros [|b m] [|y v] Hm Hv;
    simpl in *; try discriminate; auto.
  destruct b; simpl; f_equal; apply IH; lia.
Qed.

Lemma masked_fill_where (t : list A) m c :
  length m = length t ->
  masked_fill t m c = tensor_where m (repeat c (length t)) t.
Proof.
  revert m. induction t as [|x t IH]; intros [|b m] Hm;
    simpl in *; try discriminate; auto.
  f_equal. apply IH. lia.
Qed.

Lemma masked_select_zipWith (f : A -> B -> C) a b m :
  length a = length b ->
  masked_select (zipWith f a b) m =
  zipWith f (masked_select a m) (masked_select b m).
Proof.
  revert b m. induction a as [|x a IH]; intros [|y b] [|[] m] H;
    simpl in *; try discriminate; auto.
  f_equal. auto.
Qed.

Lemma masked_select_map (f : A -> B) a m :
  masked_select (map f a) m = map f (masked_select a m).
Proof.
  revert m. induction a as [|x a IH]; intros [|[] m]; simpl; auto.
  f_equal. auto.
Qed.

Lemma tensor_where_none m (v t : list A) :
  length m = length t -> length v = length t ->
  any m = false -> tensor_where m v t = t.
Proof.
  revert v t. induction m as [|b m IH]; intros [|y v] [|x t] Hm Hv Hany;
    simpl in *; try discriminate; auto.
  apply orb_false_iff in Hany. destruct Hany as [-> Hany].
  f_equal. apply IH; auto.
Qed.

End Entries.

(** ** The fraction compositor, voxel by voxel *)

Lemma length_active_mask gvf svf :
  length svf = length gvf -> length (active_mask gvf svf) = length gvf.
Proof.
  intros H. unfold active_mask, structure_indexes_mask, global_volume_fractions_mask.
  rewrite length_zipWith; rewrite !length_map; auto.
Qed.

Lemma active_mask_pointwise gvf svf :
  active_mask gvf svf = zipWith active gvf svf.
Proof.
  unfold active_mask, structure_indexes_mask, global_volume_fractions_mask.
  revert svf. induction gvf as [|g gvf IH]; intros [|s svf]; simpl; auto.
  f_equal. apply IH.
Qed.

Lemma nth_error_active_mask gvf svf i g s :
  nth_error gvf i = Some g -> nth_error svf i = Some s ->
  nth_error (active_mask gvf svf) i = Some (active g s).
Proof.
  intros Hg Hs. rewrite active_mask_pointwise, nth_error_zipWith, Hg, Hs.
  reflexivity.
Qed.

(** Lines 78-88 compute [claimed] at every voxel, whether or not the guard
    [torch.any] of line 84 lets the clamping run. *)
Lemma added_volume_fraction_pointwise gvf svf :
  length svf = length gvf ->
  added_volume_fraction gvf svf = zipWith claimed gvf svf.
Proof.
  intros Hlen. unfold added_volume_fraction. cbv zeta.
  set (avf0 := zipWith Qplus gvf svf).
  set (sel := selector_at_most_1 avf0 (active_mask gvf svf)).
  assert (Havf0 : length avf0 = length gvf)
    by (unfold avf0; apply length_zipWith; auto).
  assert (Hsel : length sel = length gvf).
  { unfold sel, selector_at_most_1. rewrite length_zipWith; auto.
    rewrite length_active_mask; auto. }
  rewrite masked_assign_select by congruence.
  set (avf1 := tensor_where sel svf avf0).
  assert (Havf1 : length avf1 = length gvf).
  { unfold avf1. rewrite length_tensor_where; congruence. }
  set (gt := map (fun a => Qlt_bool 1 a) avf1).
  assert (Hgt : length gt = length gvf) by (unfold gt; rewrite length_map; auto).
  set (clamp := zipWith Qmin (map (fun g => 1 - g) gvf) svf).
  assert (Hclamp : length clamp = length gvf).
  { unfold clamp. rewrite length_zipWith; rewrite length_map; auto. }
  assert (Hboth : (if any gt
                   then masked_assign avf1 gt
                          (zipWith Qmin (map (fun g => 1 - g) (masked_select gvf gt))
                             (masked_select svf gt))
                   else avf1) = tensor_where gt clamp avf1).
  { rewrite <- masked_select_map, <- masked_select_zipWith
      by (rewrite length_map; auto).
    fold clamp. rewrite masked_assign_select by congruence.
    destruct (any gt) eqn:E; [reflexivity|].
    symmetry. apply tensor_where_none; congruence. }
  transitivity (tensor_where gt clamp avf1); [exact Hboth|].
  apply nth_error_ext. intros i.
  rewrite nth_error_tensor_where, nth_error_zipWith.
  unfold gt, clamp, avf1, sel, selector_at_most_1, avf0.
  rewrite nth_error_map, nth_error_tensor_where, !nth_error_zipWith,
    nth_error_map, active_mask_pointwise, nth_error_zipWith.
  destruct (nth_error gvf i) as [g|]; [|reflexivity].
  destruct (nth_error svf i) as [s|]; [|reflexivity].
  simpl. unfold claimed.
  destruct (Qle_bool (g + s) (if active g s then 1 else 0)); simpl;
    destruct (Qlt_bool 1 _); reflexivity.
Qed.

Lemma nth_error_added_volume_fraction gvf svf i g s :
  length svf = length gvf ->
  nth_error gvf i = Some g -> nth_error svf i = Some s ->
  nth_error (added_volume_fraction gvf svf) i = Some (claimed g s).
Proof.
  intros Hlen Hg Hs.
  rewrite added_volume_fraction_pointwise, nth_error_zipWith, Hg, Hs; auto.
Qed.

(** Line 107, voxel by voxel. *)
Lemma occupancy_update_pointwise gvf svf :
  length svf = length gvf ->
  masked_assign gvf (active_mask gvf svf)
    (zipWith Qplus (masked_select gvf (active_mask gvf svf))
       (masked_select (added_volume_fraction gvf svf) (active_mask gvf svf)))
  = zipWith occupy gvf svf.
Proof.
  intros Hlen.
  rewrite <- masked_select_zipWith
    by (rewrite added_volume_fraction_pointwise, length_zipWith; auto).
  rewrite masked_assign_select.
  - apply nth_error_ext. intros i.
    rewrite nth_error_tensor_where, !nth_error_zipWith,
      active_mask_pointwise, added_volume_fraction_pointwise,
      !nth_error_zipWith by auto.
    destruct (nth_error gvf i) as [g|]; [|reflexivity].
    destruct (nth_error svf i) as [s|]; [|reflexivity].
    reflexivity.
  - apply length_active_mask; auto.
  - rewrite length_zipWith; auto.
    rewrite added_volume_fraction_pointwise, length_zipWith; auto.
Qed.

(** ** The property accumulator, field by field *)

Ltac inv_ok :=
  repeat match goal with
  | H : Ok _ = Ok _ |- _ => inversion H; subst; clear H
  | H : Raise _ = Ok _ |- _ => discriminate H
  | H : (_, _) = (_, _) |- _ => inversion H; subst; clear H
  end.

Lemma bind_ok {A B : Type} (r : result A) (k : A -> result B) (b : B) :
  bind r k = Ok b -> exists a, r = Ok a /\ k a = Ok b.
Proof.
  destruct r as [a|e]; simpl; intros H; [eauto | discriminate].
Qed.

Section AccumulatorFacts.

Variable segmentation_key : key.
Variable structure_properties : key -> prop_value.
Variable m : mask.
Variable avf : tensor.

Abbreviation update_field := (update_field segmentation_key structure_properties m avf).
Abbreviation accumulate := (accumulate segmentation_key structure_properties m avf).

Lemma add_weighted_where (t w : tensor) :
  length m = length t -> length w = length t ->
  add_weighted m t (masked_select w m) = tensor_where m (zipWith Qplus t w) t.
Proof.
  intros Hm Hw. unfold add_weighted.
  rewrite <- masked_select_zipWith by congruence.
  apply masked_assign_select; auto.
  rewrite length_zipWith; congruence.
Qed.

Lemma update_field_length k t maf t' maf' :
  update_field k t maf = Ok (t', maf') ->
  length t' = length t /\ length maf' = length maf.
Proof.
  unfold update_field, add_weighted. intros H.
  destruct (structure_properties k) as [|p|c|ty]; inv_ok; auto;
    destruct (String.eqb k segmentation_key); inv_ok;
    try (destruct (Nat.eqb (length p) (length m)); inv_ok);
    rewrite ?length_masked_assign, ?length_masked_fill; auto.
Qed.

Lemma update_field_absent k t maf :
  structure_properties k = PNone -> update_field k t maf = Ok (t, maf).
Proof. intros H. unfold update_field. rewrite H. reflexivity. Qed.

(** Only the segmentation key writes to [max_added_fractions]. *)
Lemma update_field_continuous k t maf t' maf' :
  k <> segmentation_key ->
  update_field k t maf = Ok (t', maf') -> maf' = maf.
Proof.
  intros Hk. apply String.eqb_neq in Hk. unfold update_field. rewrite Hk.
  destruct (structure_properties k) as [|p|c|ty]; intros H; inv_ok; auto.
  destruct (Nat.eqb (length p) (length m)); inv_ok; auto.
Qed.

Lemma update_field_segmentation t maf label :
  structure_properties segmentation_key = PScalar label ->
  update_field segmentation_key t maf =
  Ok (masked_fill t (segmentation_selector m avf maf) label,
      masked_assign maf (segmentation_selector m avf maf)
        (masked_select avf (segmentation_selector m avf maf))).
Proof.
  intros H. unfold update_field. rewrite H, String.eqb_refl. reflexivity.
Qed.

Lemma nth_error_segmentation_selector maf i :
  nth_error (segmentation_selector m avf maf) i =
  match nth_error avf i, nth_error maf i, nth_error m i with
  | Some a, Some x, Some b => Some (Qlt_bool x a && b)%bool
  | _, _, _ => None
  end.
Proof.
  unfold segmentation_selector. rewrite !nth_error_zipWith.
  destruct (nth_error avf i), (nth_error maf i), (nth_error m i); reflexivity.
Qed.

Lemma length_segmentation_selector maf :
  length avf = length m -> length maf = length m ->
  length (segmentation_selector m avf maf) = length m.
Proof.
  intros Ha Hx. unfold segmentation_selector.
  rewrite length_zipWith; rewrite length_zipWith; congruence.
Qed.

(** A voxel outside the mask is not written, whatever the property is. *)
Lemma update_field_inactive k t maf t' maf' i :
  length avf = length m -> length t = length m -> length maf = length m ->
  update_field k t maf = Ok (t', maf') ->
  nth_error m i = Some false ->
  nth_error t' i = nth_error t i /\ nth_error maf' i = nth_error maf i.
Proof.
  intros Ha Ht Hx H Hi. unfold update_field in H.
  assert (Hmi : (i < length m)%nat) by (apply nth_error_Some; congruence).
  destruct (nth_error t i) as [x|] eqn:Et;
    [|apply nth_error_None in Et; lia].
  destruct (nth_error maf i) as [y|] eqn:Ex;
    [|apply nth_error_None in Ex; lia].
  destruct (nth_error avf i) as [a|] eqn:Ea;
    [|apply nth_error_None in Ea; lia].
  destruct (structure_properties k) as [|p|c|ty]; inv_ok; auto;
    destruct (String.eqb k segmentation_key); inv_ok.
  - destruct (Nat.eqb (length p) (length m)) eqn:Ep; inv_ok.
    apply Nat.eqb_eq in Ep.
    rewrite <- masked_select_zipWith by congruence.
    rewrite add_weighted_where
      by (rewrite ?length_zipWith; congruence).
    rewrite nth_error_tensor_where, Hi, Et, nth_error_zipWith, Et.
    rewrite nth_error_zipWith, Ea.
    destruct (nth_error p i) eqn:E; auto.
    apply nth_error_None in E. lia.
  - rewrite masked_fill_where by (rewrite length_segmentation_selector; auto).
    rewrite masked_assign_select
      by (rewrite ?length_segmentation_selector; congruence).
    rewrite !nth_error_tensor_where, nth_error_segmentation_selector.
    rewrite Ea, Ex, Hi, Et, andb_false_r.
    rewrite nth_error_repeat by lia. auto.
  - rewrite <- masked_select_map.
    rewrite add_weighted_where by (rewrite ?length_map; congruence).
    rewrite nth_error_tensor_where, Hi, Et, nth_error_zipWith, Et.
    rewrite nth_error_map, Ea. auto.
Qed.

End AccumulatorFacts.

Section AccumulateFacts.

Variable segmentation_key : key.
Variable structure_properties : key -> prop_value.
Variable m : mask.
Variable avf : tensor.

Abbreviation upd := (update_field segmentation_key structure_properties m avf).
Abbreviation acc := (accumulate segmentation_key structure_properties m avf).

(** One step of the loop over the keys, read backwards from its result. *)
Lemma accumulate_cons k t rest maf vols' maf' :
  acc ((k, t) :: rest) maf = Ok (vols', maf') ->
  exists t' maf1 rest',
    upd k t maf = Ok (t', maf1) /\
    acc rest maf1 = Ok (rest', maf') /\
    vols' = (k, t') :: rest'.
Proof.
  simpl. intros H.
  apply bind_ok in H. destruct H as [[t' maf1] [H1 H]].
  apply bind_ok in H. destruct H as [[rest' maf2] [H2 H]].
  inv_ok. eauto 6.
Qed.

Lemma accumulate_keys vols maf vols' maf' :
  acc vols maf = Ok (vols', maf') -> map fst vols' = map fst vols.
Proof.
  revert maf vols'. induction vols as [|[k t] rest IH]; intros maf vols' H.
  - simpl in H. inv_ok. reflexivity.
  - apply accumulate_cons in H.
    destruct H as (t' & maf1 & rest' & H1 & H2 & ->).
    simpl. f_equal. eauto.
Qed.

Lemma accumulate_shape n vols maf vols' maf' :
  Forall (fun kt => length (snd kt) = n) vols ->
  acc vols maf = Ok (vols', maf') ->
  Forall (fun kt => length (snd kt) = n) vols' /\ length maf' = length maf.
Proof.
  revert maf vols'. induction vols as [|[k t] rest IH]; intros maf vols' Hn H.
  - simpl in H. inv_ok. auto.
  - apply accumulate_cons in H.
    destruct H as (t' & maf1 & rest' & H1 & H2 & ->).
    apply Forall_cons_iff in Hn. destruct Hn as [Ht Hrest]. simpl in Ht.
    apply update_field_length in H1. destruct H1 as [Ht' Hmaf1].
    destruct (IH _ _ Hrest H2) as [Hrest' Hmaf'].
    split; [constructor; simpl; auto; congruence | congruence].
Qed.

Lemma accumulate_inactive vols maf vols' maf' i :
  length avf = length m -> length maf = length m ->
  Forall (fun kt => length (snd kt) = length m) vols ->
  acc vols maf = Ok (vols', maf') ->
  nth_error m i = Some false ->
  voxel_view i vols' = voxel_view i vols /\
  nth_error maf' i = nth_error maf i.
Proof.
  intros Ha. revert maf vols'.
  induction vols as [|[k t] rest IH]; intros maf vols' Hx Hn H Hi.
  - simpl in H. inv_ok. auto.
  - apply accumulate_cons in H.
    destruct H as (t' & maf1 & rest' & H1 & H2 & ->).
    apply Forall_cons_iff in Hn. destruct Hn as [Ht Hrest]. simpl in Ht.
    destruct (update_field_length _ _ _ _ _ _ _ H1) as [_ Hmaf1].
    destruct (update_field_inactive _ _ _ _ _ _ _ i Ha Ht Hx H1 Hi) as [Et Ex].
    destruct (IH maf1 rest') as [Ev Em]; auto; try congruence.
    split; [|congruence].
    unfold voxel_view in *. simpl. rewrite Et, Ev. reflexivity.
Qed.

(** An absent property leaves the field stored under its key as it is. *)
Lemma accumulate_absent k vols maf vols' maf' :
  structure_properties k = PNone ->
  acc vols maf = Ok (vols', maf') ->
  field k vols' = field k vols.
Proof.
  intros Hk. revert maf vols'.
  induction vols as [|[k0 t] rest IH]; intros maf vols' H.
  - simpl in H. inv_ok. reflexivity.
  - apply accumulate_cons in H.
    destruct H as (t' & maf1 & rest' & H1 & H2 & ->).
    simpl. destruct (String.eqb_spec k k0) as [<-|Hne].
    + rewrite update_field_absent in H1 by assumption. inv_ok. reflexivity.
    + eauto.
Qed.

(** Without the segmentation key among the fields, or with no
    segmentation property, [max_added_fractions] is not written. *)
Lemma accumulate_no_segmentation vols maf vols' maf' :
  ~ In segmentation_key (map fst vols) \/
  structure_properties segmentation_key = PNone ->
  acc vols maf = Ok (vols', maf') ->
  maf' = maf /\ field segmentation_key vols' = field segmentation_key vols.
Proof.
  revert maf vols'.
  induction vols as [|[k0 t] rest IH]; intros maf vols' Hno H.
  - simpl in H. inv_ok. auto.
  - apply accumulate_cons in H.
    destruct H as (t' & maf1 & rest' & H1 & H2 & ->).
    simpl. destruct (String.eqb_spec segmentation_key k0) as [<-|Hne].
    + destruct Hno as [Hno|Hno]; [exfalso; apply Hno; simpl; auto|].
      rewrite update_field_absent in H1 by assumption. inv_ok.
      destruct (IH maf1 rest') as [-> _]; auto.
    + apply update_field_continuous in H1; [|congruence]. subst maf1.
      apply IH; auto.
      destruct Hno as [Hno|Hno]; [left|right; assumption].
      intros Hin. apply Hno. simpl. auto.
Qed.

(** The field stored under the segmentation key is written under the
    selector of lines 93-94. *)
Lemma accumulate_segmentation_field vols maf vols' maf' label t :
  structure_properties segmentation_key = PScalar label ->
  field segmentation_key vols = Some t ->
  acc vols maf = Ok (vols', maf') ->
  field segmentation_key vols' =
    Some (masked_fill t (segmentation_selector m avf maf) label).
Proof.
  intros Hlab. revert maf vols'.
  induction vols as [|[k0 t0] rest IH]; intros maf vols' Hf H.
  - discriminate Hf.
  - apply accumulate_cons in H.
    destruct H as (t' & maf1 & rest' & H1 & H2 & ->).
    simpl in *. destruct (String.eqb_spec segmentation_key k0) as [<-|Hne].
    + injection Hf as ->.
      rewrite update_field_segmentation with (label := label) in H1
        by assumption.
      inv_ok. reflexivity.
    + apply update_field_continuous in H1; [|congruence]. subst maf1.
      apply IH; auto.
Qed.

(** With distinct keys and a label, the segmentation field and
    [max_added_fractions] are written once, under the selector of
    lines 93-96. *)
Lemma accumulate_segmentation vols maf vols' maf' label t :
  NoDup (map fst vols) ->
  structure_properties segmentation_key = PScalar label ->
  field segmentation_key vols = Some t ->
  acc vols maf = Ok (vols', maf') ->
  field segmentation_key vols' =
    Some (masked_fill t (segmentation_selector m avf maf) label) /\
  maf' = masked_assign maf (segmentation_selector m avf maf)
           (masked_select avf (segmentation_selector m avf maf)).
Proof.
  intros Hnd Hlab. revert maf vols'.
  induction vols as [|[k0 t0] rest IH]; intros maf vols' Hf H.
  - discriminate Hf.
  - apply accumulate_cons in H.
    destruct H as (t' & maf1 & rest' & H1 & H2 & ->).
    simpl in Hnd. apply NoDup_cons_iff in Hnd. destruct Hnd as [Hnotin Hnd'].
    simpl in *. destruct (String.eqb_spec segmentation_key k0) as [<-|Hne].
    + injection Hf as ->.
      rewrite update_field_segmentation with (label := label) in H1
        by assumption.
      inv_ok. split; [reflexivity|].
      apply accumulate_no_segmentation in H2; [tauto | left; assumption].
    + apply update_field_continuous in H1; [|congruence]. subst maf1.
      apply IH; auto.
Qed.

End AccumulateFacts.

(** ** One voxel: arithmetic of [active], [claimed] and [occupy] *)

Lemma active_true_iff g s : active g s = true <-> 0 < s /\ g < 1.
Proof.
  unfold active. rewrite andb_true_iff, !Qlt_bool_iff. tauto.
Qed.

Lemma active_closed g s : 1 <= g -> active g s = false.
Proof.
  intros H. unfold active. apply andb_false_iff. right.
  apply Qlt_bool_false_iff. exact H.
Qed.

Lemma active_empty g s : s <= 0 -> active g s = false.
Proof.
  intros H. unfold active. apply andb_false_iff. left.
  apply Qlt_bool_false_iff. exact H.
Qed.

(** Step 3 of the compositor: room for all of the structure. *)
Lemma claimed_fits g s :
  active g s = true -> 0 <= g -> g + s <= 1 -> claimed g s = s.
Proof.
  intros Ha Hg Hle. unfold claimed. rewrite Ha.
  assert (E : Qlt_bool 1 s = false) by (apply Qlt_bool_false_iff; lra).
  apply Qle_bool_iff in Hle. rewrite Hle, E. reflexivity.
Qed.

(** Step 4 of the compositor: the claim is clamped to the room left. *)
Lemma claimed_clamped g s :
  active g s = true -> 1 < g + s -> claimed g s = Qmin (1 - g) s.
Proof.
  intros Ha Hgt. unfold claimed. rewrite Ha.
  assert (E : Qle_bool (g + s) 1 = false) by (apply Qle_bool_false_iff; exact Hgt).
  rewrite E. apply Qlt_bool_iff in Hgt. rewrite Hgt. reflexivity.
Qed.

Lemma claimed_cases g s :
  active g s = true ->
  (g + s <= 1 /\ (1 < s -> False) /\ claimed g s = s) \/
  (g + s <= 1 /\ 1 < s /\ claimed g s = Qmin (1 - g) s) \/
  (1 < g + s /\ claimed g s = Qmin (1 - g) s).
Proof.
  intros Ha. destruct (Qlt_le_dec 1 (g + s)) as [Hgt|Hle].
  - right. right. split; [assumption|]. apply claimed_clamped; assumption.
  - unfold claimed. rewrite Ha.
    assert (E : Qle_bool (g + s) 1 = true) by (apply Qle_bool_iff; exact Hle).
    rewrite E. destruct (Qlt_bool 1 s) eqn:Es.
    + apply Qlt_bool_iff in Es. right. left. auto.
    + apply Qlt_bool_false_iff in Es. left. repeat split; auto. lra.
Qed.

Lemma claimed_positive g s : active g s = true -> 0 < claimed g s.
Proof.
  intros Ha. destruct (claimed_cases g s Ha) as [(_ & _ & ->)|[(_ & _ & ->)|(_ & ->)]];
    apply active_true_iff in Ha; destruct Ha as [Hs Hg];
    try assumption;
    apply Q.min_glb_lt; lra.
Qed.

Lemma claimed_room g s : active g s = true -> g + claimed g s <= 1.
Proof.
  intros Ha. destruct (claimed_cases g s Ha) as [(H & _ & ->)|[(_ & _ & ->)|(_ & ->)]];
    try assumption;
    pose proof (Q.le_min_l (1 - g) s); lra.
Qed.

(** The clamping keeps the cumulative occupancy of a voxel in [0, 1],
    whatever the occupancy of the structure is. *)
Lemma occupy_bounds g s : 0 <= g <= 1 -> 0 <= occupy g s <= 1.
Proof.
  intros [H0 H1]. unfold occupy. destruct (active g s) eqn:Ha; [|auto].
  pose proof (claimed_positive g s Ha). pose proof (claimed_room g s Ha).
  split; lra.
Qed.

Lemma occupy_inactive g s : active g s = false -> occupy g s = g.
Proof. intros H. unfold occupy. rewrite H. reflexivity. Qed.

Lemma nth_error_zeros n i : (i < n)%nat -> nth_error (zeros n) i = Some 0.
Proof. intros H. unfold zeros. apply nth_error_repeat. exact H. Qed.

Lemma length_zeros n : length (zeros n) = n.
Proof. apply repeat_length. Qed.

(** ** One structure *)

Section CompositorFacts.

Variable segmentation_key : key.
Variable gs : global_settings.

Abbreviation step := (compose_structure segmentation_key gs).
Abbreviation pass := (compose segmentation_key gs).
Abbreviation props_of s := (properties_for_wavelength s gs (WAVELENGTH gs)).

(** A structure that is processed has the shape of the grid; the fields
    come from the key loop, the cumulative occupancy from [occupy]. *)
Lemma compose_structure_ok st s st' :
  step st s = Ok st' ->
  length (geometrical_volume s) = length (global_volume_fractions st) /\
  accumulate segmentation_key (props_of s)
    (active_mask (global_volume_fractions st) (geometrical_volume s))
    (added_volume_fraction (global_volume_fractions st) (geometrical_volume s))
    (volumes st) (max_added_fractions st)
  = Ok (volumes st', max_added_fractions st') /\
  global_volume_fractions st' =
    zipWith occupy (global_volume_fractions st) (geometrical_volume s).
Proof.
  unfold compose_structure. intros H.
  destruct (Nat.eqb _ _) eqn:E; [|discriminate].
  apply Nat.eqb_eq in E.
  apply bind_ok in H. destruct H as [[vols maf] [Hacc H]]. inv_ok. simpl.
  rewrite occupancy_update_pointwise by assumption. auto.
Qed.

Lemma compose_structure_shape n st s st' :
  grid_shaped n st -> step st s = Ok st' -> grid_shaped n st'.
Proof.
  intros (Hg & Hm & Hv) H.
  apply compose_structure_ok in H. destruct H as (Hlen & Hacc & Hocc).
  eapply accumulate_shape in Hacc; [|exact Hv]. destruct Hacc as [Hv' Hm'].
  unfold grid_shaped. rewrite Hocc, length_zipWith by congruence.
  repeat split; auto; congruence.
Qed.

Lemma compose_structure_keys st s st' :
  step st s = Ok st' -> map fst (volumes st') = map fst (volumes st).
Proof.
  intros H. apply compose_structure_ok in H. destruct H as (_ & Hacc & _).
  eapply accumulate_keys; eassumption.
Qed.

Lemma compose_structure_occupancy st s st' i g sv :
  step st s = Ok st' ->
  nth_error (global_volume_fractions st) i = Some g ->
  nth_error (geometrical_volume s) i = Some sv ->
  nth_error (global_volume_fractions st') i = Some (occupy g sv).
Proof.
  intros H Hg Hs. apply compose_structure_ok in H.
  destruct H as (_ & _ & ->). rewrite nth_error_zipWith, Hg, Hs. reflexivity.
Qed.

(** A voxel outside the mask of a structure is left as it is, in every
    field. *)
Lemma compose_structure_inactive n st s st' i g sv :
  grid_shaped n st -> step st s = Ok st' ->
  nth_error (global_volume_fractions st) i = Some g ->
  nth_error (geometrical_volume s) i = Some sv ->
  active g sv = false ->
  nth_error (global_volume_fractions st') i = Some g /\
  nth_error (max_added_fractions st') i = nth_error (max_added_fractions st) i /\
  voxel_view i (volumes st') = voxel_view i (volumes st).
Proof.
  intros (Hgn & Hmn & Hvn) H Hg Hs Ha.
  pose proof H as Hocc. eapply compose_structure_occupancy in Hocc; [|exact Hg|exact Hs].
  rewrite occupy_inactive in Hocc by assumption.
  apply compose_structure_ok in H. destruct H as (Hlen & Hacc & _).
  assert (Hmask : length (active_mask (global_volume_fractions st)
                            (geometrical_volume s)) = n)
    by (rewrite length_active_mask; congruence).
  eapply accumulate_inactive with (i := i) in Hacc.
  - destruct Hacc as [Hv Hm]. auto.
  - rewrite added_volume_fraction_pointwise, length_zipWith; congruence.
  - congruence.
  - rewrite Hmask. assumption.
  - rewrite (nth_error_active_mask _ _ _ Hg Hs), Ha. reflexivity.
Qed.

(** ** All structures *)

Lemma compose_cons st s rest st'' :
  pass st (s :: rest) = Ok st'' ->
  exists st', step st s = Ok st' /\ pass st' rest = Ok st''.
Proof. simpl. apply bind_ok. Qed.

Lemma compose_app st pre post st'' :
  pass st (pre ++ post) = Ok st'' ->
  exists st', pass st pre = Ok st' /\ pass st' post = Ok st''.
Proof.
  revert st. induction pre as [|s pre IH]; intros st H.
  - simpl. eauto.
  - simpl in H. apply bind_ok in H. destruct H as [st1 [H1 H]].
    apply IH in H. destruct H as [st' [Hpre Hpost]].
    exists st'. simpl. rewrite H1. auto.
Qed.

Lemma compose_shape n st structures st' :
  grid_shaped n st -> pass st structures = Ok st' -> grid_shaped n st'.
Proof.
  revert st. induction structures as [|s rest IH]; intros st Hn H.
  - simpl in H. inv_ok. assumption.
  - apply compose_cons in H. destruct H as [st1 [H1 H]].
    eauto using compose_structure_shape.
Qed.

Lemma compose_keys st structures st' :
  pass st structures = Ok st' -> map fst (volumes st') = map fst (volumes st).
Proof.
  revert st. induction structures as [|s rest IH]; intros st H.
  - simpl in H. inv_ok. reflexivity.
  - apply compose_cons in H. destruct H as [st1 [H1 H]].
    rewrite (IH _ H). eapply compose_structure_keys; eassumption.
Qed.

(** The invariant of the cumulative occupancy, for one structure and for
    a pass. *)
Lemma compose_structure_bounds st s st' :
  Forall (fun g => 0 <= g <= 1) (global_volume_fractions st) ->
  step st s = Ok st' ->
  Forall (fun g => 0 <= g <= 1) (global_volume_fractions st').
Proof.
  intros Hb H. apply compose_structure_ok in H. destruct H as (_ & _ & ->).
  revert Hb. generalize (geometrical_volume s).
  induction (global_volume_fractions st) as [|g gvf IHg];
    intros [|sv svf] Hb; simpl; constructor.
  - apply occupy_bounds. apply (Forall_inv Hb).
  - apply IHg. apply (Forall_inv_tail Hb).
Qed.

Lemma compose_bounds st structures st' :
  Forall (fun g => 0 <= g <= 1) (global_volume_fractions st) ->
  pass st structures = Ok st' ->
  Forall (fun g => 0 <= g <= 1) (global_volume_fractions st').
Proof.
  revert st. induction structures as [|s rest IH]; intros st Hb H.
  - simpl in H. inv_ok. assumption.
  - apply compose_cons in H. destruct H as [st1 [H1 H]].
    apply (IH st1); [|assumption].
    eapply compose_structure_bounds; eassumption.
Qed.

End CompositorFacts.

(** ** The pass from the allocated state *)

Section AdapterFacts.

Context {C : Collaborators}.
Variable gs : global_settings.

Lemma initial_state_ok st0 :
  initial_state gs = Ok st0 ->
  volumes st0 = map (fun k => (k, zeros (voxels gs))) (property_tags gs) /\
  global_volume_fractions st0 = zeros (voxels gs) /\
  max_added_fractions st0 = zeros (voxels gs).
Proof.
  unfold initial_state, create_empty_volumes, voxels.
  destruct (volume_shape gs) as [[x y] z].
  destruct (_ || _)%bool; [discriminate|].
  destruct (property_tags gs) as [|k keys]; [discriminate|].
  simpl. intros H. inv_ok. simpl. auto.
Qed.

Lemma initial_state_shape st0 :
  initial_state gs = Ok st0 -> grid_shaped (voxels gs) st0.
Proof.
  intros H. apply initial_state_ok in H. destruct H as (Hv & Hg & Hm).
  unfold grid_shaped. rewrite Hv, Hg, Hm, !length_zeros.
  repeat split. apply Forall_forall. intros [k t] Hin.
  apply in_map_iff in Hin. destruct Hin as (k' & E & _).
  inversion E; subst. simpl. apply length_zeros.
Qed.

Lemma composite_ok structures st :
  composite gs structures = Ok st ->
  exists st0, initial_state gs = Ok st0 /\
              compose DATA_FIELD_SEGMENTATION gs st0 structures = Ok st.
Proof. unfold composite. apply bind_ok. Qed.

Lemma composite_shape structures st :
  composite gs structures = Ok st -> grid_shaped (voxels gs) st.
Proof.
  intros H. apply composite_ok in H. destruct H as (st0 & H0 & H).
  eapply compose_shape; [|eassumption]. apply initial_state_shape. assumption.
Qed.

Lemma composite_keys structures st :
  composite gs structures = Ok st -> map fst (volumes st) = property_tags gs.
Proof.
  intros H. apply composite_ok in H. destruct H as (st0 & H0 & H).
  apply compose_keys in H. rewrite H.
  apply initial_state_ok in H0. destruct H0 as (-> & _).
  rewrite map_map. simpl. apply map_id.
Qed.

Lemma composite_bounds structures st :
  composite gs structures = Ok st ->
  Forall (fun g => 0 <= g <= 1) (global_volume_fractions st).
Proof.
  intros H. apply composite_ok in H. destruct H as (st0 & H0 & H).
  eapply compose_bounds; [|eassumption].
  apply initial_state_ok in H0. destruct H0 as (_ & -> & _).
  unfold zeros. apply Forall_forall. intros g Hin.
  apply repeat_spec in Hin. subst. split; lra.
Qed.

Lemma composite_app pre post st :
  composite gs (pre ++ post) = Ok st ->
  exists st', composite gs pre = Ok st' /\
              compose DATA_FIELD_SEGMENTATION gs st' post = Ok st.
Proof.
  intros H. apply composite_ok in H. destruct H as (st0 & H0 & H).
  apply compose_app in H. destruct H as (st' & Hpre & Hpost).
  exists st'. unfold composite. rewrite H0. auto.
Qed.

Lemma composite_snoc pre s st st' :
  composite gs pre = Ok st ->
  compose_structure DATA_FIELD_SEGMENTATION gs st s = Ok st' ->
  composite gs (pre ++ [s]) = Ok st'.
Proof.
  intros H Hs. apply composite_ok in H. destruct H as (st0 & H0 & H).
  unfold composite. rewrite H0. simpl.
  clear H0. revert st0 H. induction pre as [|p pre IH]; intros st0 H; simpl in *.
  - inv_ok. rewrite Hs. reflexivity.
  - apply bind_ok in H. destruct H as (st1 & H1 & H). rewrite H1. simpl. auto.
Qed.

Lemma finish_ok structures out :
  finish gs structures = Ok out ->
  exists st, composite gs structures = Ok st /\
             consistency_violated (global_volume_fractions st) = false /\
             out = materialize (volumes st).
Proof.
  unfold finish, run_pass, composite. intros H.
  apply bind_ok in H. destruct H as (st0 & H0 & H).
  apply bind_ok in H. destruct H as (st & Hc & H).
  apply bind_ok in H. destruct H as ([] & Hv & H).
  inv_ok. exists st. rewrite H0. simpl. repeat split; auto.
  unfold consistency_check in Hv.
  destruct (consistency_violated _); [discriminate | reflexivity].
Qed.

Lemma create_simulation_volume_result w :
  fst (create_simulation_volume gs w) = finish gs (provided_structures gs w).
Proof.
  unfold create_simulation_volume, finish, provided_structures.
  destruct (initial_state gs) as [st0|e]; simpl; [|reflexivity].
  destruct (priority_sorted_structures _ _ _) as [structures r].
  reflexivity.
Qed.

End AdapterFacts.

(** ** Voxels no structure is active at *)

Lemma compose_inactive segmentation_key gs n later st st' i g :
  grid_shaped n st ->
  compose segmentation_key gs st later = Ok st' ->
  nth_error (global_volume_fractions st) i = Some g ->
  (forall S sv, In S later -> nth_error (geometrical_volume S) i = Some sv ->
                active g sv = false) ->
  nth_error (global_volume_fractions st') i = Some g /\
  nth_error (max_added_fractions st') i = nth_error (max_added_fractions st) i /\
  voxel_view i (volumes st') = voxel_view i (volumes st).
Proof.
  revert st. induction later as [|S rest IH]; intros st Hn H Hg Hin.
  - simpl in H. inv_ok. auto.
  - apply compose_cons in H. destruct H as (st1 & H1 & H).
    pose proof H1 as Hlen. apply compose_structure_ok in Hlen.
    destruct Hlen as (Hlen & _ & _).
    destruct (nth_error (geometrical_volume S) i) as [sv|] eqn:Es.
    2:{ apply nth_error_None in Es.
        assert (nth_error (global_volume_fractions st) i <> None) by congruence.
        apply nth_error_Some in H0. lia. }
    assert (Ha : active g sv = false) by (apply (Hin S); simpl; auto).
    edestruct compose_structure_inactive as (Hg1 & Hm1 & Hv1);
      [exact Hn | exact H1 | exact Hg | exact Es | exact Ha |].
    destruct (IH st1) as (Hg' & Hm' & Hv'); auto.
    + eapply compose_structure_shape; eassumption.
    + intros S' sv' HS'. apply Hin. simpl. auto.
    + repeat split; congruence.
Qed.

Lemma field_at_view k i v1 v2 :
  voxel_view i v1 = voxel_view i v2 -> field_at k v1 i = field_at k v2 i.
Proof.
  unfold field_at. revert v2.
  induction v1 as [|[k1 t1] v1 IH]; intros [|[k2 t2] v2] H;
    simpl in *; try discriminate; auto.
  inversion H; subst. destruct (String.eqb k k2); auto.
Qed.

Lemma materialize_view i vols :
  output_view i (materialize vols) = voxel_view i vols.
Proof.
  unfold output_view, materialize, voxel_view. rewrite map_map. reflexivity.
Qed.

(** ** The segmentation field at one voxel *)

Lemma nth_error_masked_fill (t : tensor) (sel : mask) (c : Q) i b x :
  nth_error sel i = Some b -> nth_error t i = Some x ->
  nth_error (masked_fill t sel c) i = Some (if b then c else x).
Proof.
  revert sel i. induction t as [|y t IH]; intros [|b0 sel] [|i] Hb Hx;
    simpl in *; try discriminate; inv_ok; auto.
  - injection Hb as ->. injection Hx as ->. reflexivity.
Qed.

Lemma field_allocated k keys (z : tensor) :
  In k keys -> field k (map (fun k' => (k', z)) keys) = Some z.
Proof.
  induction keys as [|k0 keys IH]; intros Hin; simpl in *; [contradiction|].
  destruct (String.eqb_spec k k0) as [_|Hne]; [reflexivity|].
  apply IH. destruct Hin; [congruence | assumption].
Qed.

(** A value stored under the segmentation key is a label or absent, or
    the key loop raises. *)
Lemma accumulate_segmentation_type segmentation_key structure_properties m avf
    vols maf vols' maf' t :
  field segmentation_key vols = Some t ->
  accumulate segmentation_key structure_properties m avf vols maf = Ok (vols', maf') ->
  structure_properties segmentation_key = PNone \/
  exists label, structure_properties segmentation_key = PScalar label.
Proof.
  revert maf vols'. induction vols as [|[k0 t0] rest IH]; intros maf vols' Hf H.
  - discriminate Hf.
  - apply accumulate_cons in H.
    destruct H as (t' & maf1 & rest' & H1 & H2 & ->).
    simpl in Hf. destruct (String.eqb_spec segmentation_key k0) as [<-|Hne].
    + unfold update_field in H1. rewrite String.eqb_refl in H1.
      destruct (structure_properties segmentation_key); inv_ok; eauto.
    + eapply IH; eassumption.
Qed.

Section SegmentationFacts.

Variable segmentation_key : key.
Variable gs : global_settings.
Variable n : nat.
Variable i : nat.

Abbreviation seg_at st := (field_at segmentation_key (volumes st) i).
Abbreviation max_at st := (nth_error (max_added_fractions st) i).
Abbreviation bid_of st S := (bid segmentation_key gs st S i).

(** Lines 92-96 at one voxel: without a bid nothing is written; a bid
    takes the label and the maximum when it is strictly greater than the
    maximum so far. *)
Lemma segmentation_step st S st' x old :
  grid_shaped n st -> NoDup (map fst (volumes st)) ->
  compose_structure segmentation_key gs st S = Ok st' ->
  seg_at st = Some old -> max_at st = Some x ->
  match bid_of st S with
  | None => seg_at st' = Some old /\ max_at st' = Some x
  | Some a =>
      exists label,
        properties_for_wavelength S gs (WAVELENGTH gs) segmentation_key
          = PScalar label /\
        seg_at st' = Some (if Qlt_bool x a then label else old) /\
        max_at st' = Some (if Qlt_bool x a then a else x)
  end.
Proof.
  intros (Hgn & Hmn & Hvn) Hnd Hstep Hseg Hmax.
  unfold field_at in Hseg.
  destruct (field segmentation_key (volumes st)) as [t|] eqn:Ef; [|discriminate].
  apply compose_structure_ok in Hstep. destruct Hstep as (Hlen & Hacc & _).
  unfold bid.
  set (m := active_mask (global_volume_fractions st) (geometrical_volume S)) in *.
  set (avf := added_volume_fraction (global_volume_fractions st)
                (geometrical_volume S)) in *.
  assert (Hm : length m = n) by (unfold m; rewrite length_active_mask; congruence).
  assert (Ha : length avf = n).
  { unfold avf. rewrite added_volume_fraction_pointwise, length_zipWith; congruence. }
  destruct (accumulate_segmentation_type _ _ _ _ _ _ Ef Hacc) as [Hnone|[label Hlab]].
  - rewrite Hnone.
    apply accumulate_no_segmentation in Hacc; [|right; assumption].
    destruct Hacc as [-> Ef']. unfold field_at. rewrite Ef', Ef. auto.
  - rewrite Hlab.
    destruct (accumulate_segmentation _ _ _ _ _ _ Hnd Hlab Ef Hacc) as [Ef' Emaf].
    assert (Hi : (i < n)%nat) by (rewrite <- Hmn; apply nth_error_Some; congruence).
    destruct (nth_error m i) as [b|] eqn:Eb;
      [|apply nth_error_None in Eb; lia].
    destruct (nth_error avf i) as [a|] eqn:Ea;
      [|apply nth_error_None in Ea; lia].
    assert (Esel : nth_error (segmentation_selector m avf (max_added_fractions st)) i
                   = Some (Qlt_bool x a && b)%bool).
    { rewrite nth_error_segmentation_selector, Ea, Hmax, Eb. reflexivity. }
    assert (Hseg' : seg_at st' = Some (if (Qlt_bool x a && b)%bool then label else old)).
    { unfold field_at. rewrite Ef'. apply nth_error_masked_fill; assumption. }
    assert (Hmax' : max_at st' = Some (if (Qlt_bool x a && b)%bool then a else x)).
    { rewrite Emaf, masked_assign_select
        by (rewrite ?length_segmentation_selector; congruence).
      rewrite nth_error_tensor_where, Esel, Ea, Hmax. reflexivity. }
    destruct b.
    + rewrite andb_true_r in *. exists label. auto.
    + rewrite andb_false_r in *. auto.
Qed.

End SegmentationFacts.

Section SegmentationPass.

Variable segmentation_key : key.
Variable gs : global_settings.
Variable n : nat.
Variable i : nat.

Abbreviation label_at st := (field_at segmentation_key (volumes st) i).
Abbreviation maximum_at st := (nth_error (max_added_fractions st) i).
Abbreviation bids_from st structures := (bids segmentation_key gs st structures i).

(** A bid is a positive fraction. *)
Lemma bid_positive st S st' c :
  compose_structure segmentation_key gs st S = Ok st' ->
  bid segmentation_key gs st S i = Some c -> 0 < c.
Proof.
  intros Hstep Hbid. apply compose_structure_ok in Hstep.
  destruct Hstep as (Hlen & _ & _). unfold bid in Hbid.
  rewrite active_mask_pointwise, added_volume_fraction_pointwise,
    !nth_error_zipWith in Hbid by assumption.
  destruct (properties_for_wavelength S gs (WAVELENGTH gs) segmentation_key);
    try discriminate;
    destruct (nth_error (global_volume_fractions st) i) as [g|]; try discriminate;
    destruct (nth_error (geometrical_volume S) i) as [sv|]; try discriminate;
    destruct (active g sv) eqn:Ha; try discriminate;
    injection Hbid as <-; apply claimed_positive; assumption.
Qed.

Lemma bids_cons st S rest st1 :
  compose_structure segmentation_key gs st S = Ok st1 ->
  bids_from st (S :: rest) = bid segmentation_key gs st S i :: bids_from st1 rest.
Proof. intros H. simpl. rewrite H. reflexivity. Qed.

Lemma bids_positive structures st st' j c :
  compose segmentation_key gs st structures = Ok st' ->
  nth_error (bids_from st structures) j = Some (Some c) -> 0 < c.
Proof.
  revert st j. induction structures as [|S rest IH]; intros st j H Hj.
  - destruct j; discriminate.
  - apply compose_cons in H. destruct H as (st1 & H1 & H).
    rewrite (bids_cons _ _ rest H1) in Hj. destruct j as [|j]; simpl in Hj.
    + injection Hj as Hj. eapply bid_positive; eassumption.
    + eapply IH; eassumption.
Qed.

(** Bids that do not exceed the maximum so far leave the label alone. *)
Lemma segmentation_kept structures st st' mx old :
  grid_shaped n st -> NoDup (map fst (volumes st)) ->
  compose segmentation_key gs st structures = Ok st' ->
  label_at st = Some old -> maximum_at st = Some mx ->
  (forall j c, nth_error (bids_from st structures) j = Some (Some c) -> c <= mx) ->
  label_at st' = Some old.
Proof.
  revert st. induction structures as [|S rest IH]; intros st Hn Hnd H Hl Hm Hbids.
  - simpl in H. inv_ok. assumption.
  - apply compose_cons in H. destruct H as (st1 & H1 & H).
    rewrite (bids_cons _ _ rest H1) in Hbids.
    pose proof (segmentation_step segmentation_key gs i _ Hn Hnd H1 Hl Hm) as Hstep.
    assert (Hn1 : grid_shaped n st1) by (eapply compose_structure_shape; eassumption).
    assert (Hnd1 : NoDup (map fst (volumes st1)))
      by (rewrite (compose_structure_keys _ _ _ _ H1); assumption).
    assert (Hrest : forall j c, nth_error (bids_from st1 rest) j = Some (Some c) ->
                                c <= mx)
      by (intros j c Hj; apply (Hbids (Datatypes.S j) c); exact Hj).
    destruct (bid segmentation_key gs st S i) as [a|] eqn:Eb.
    + destruct Hstep as (label & _ & Hl1 & Hm1).
      assert (Hle : a <= mx) by (apply (Hbids 0%nat a); reflexivity).
      apply Qlt_bool_false_iff in Hle. rewrite Hle in Hl1, Hm1.
      eapply IH; eassumption.
    + destruct Hstep as (Hl1 & Hm1). eapply IH; eassumption.
Qed.

(** The structure whose bid is strictly greater than every other bid of the
    pass gives the voxel its label. *)
Lemma segmentation_winner structures st st' j S label c mx old :
  grid_shaped n st -> NoDup (map fst (volumes st)) ->
  compose segmentation_key gs st structures = Ok st' ->
  label_at st = Some old -> maximum_at st = Some mx -> mx < c ->
  nth_error structures j = Some S ->
  properties_for_wavelength S gs (WAVELENGTH gs) segmentation_key = PScalar label ->
  nth_error (bids_from st structures) j = Some (Some c) ->
  (forall j' c', j' <> j ->
     nth_error (bids_from st structures) j' = Some (Some c') -> c' < c) ->
  label_at st' = Some label.
Proof.
  revert st j mx old.
  induction structures as [|S0 rest IH];
    intros st j mx old Hn Hnd H Hl Hm Hlt HS Hlab Hj Hothers.
  - destruct j; discriminate.
  - apply compose_cons in H. destruct H as (st1 & H1 & H).
    rewrite (bids_cons _ _ rest H1) in Hj, Hothers.
    pose proof (segmentation_step segmentation_key gs i _ Hn Hnd H1 Hl Hm) as Hstep.
    assert (Hn1 : grid_shaped n st1) by (eapply compose_structure_shape; eassumption).
    assert (Hnd1 : NoDup (map fst (volumes st1)))
      by (rewrite (compose_structure_keys _ _ _ _ H1); assumption).
    destruct j as [|j]; simpl in HS, Hj.
    + injection HS as ->. injection Hj as Hj. rewrite Hj in Hstep.
      destruct Hstep as (label' & Hlab' & Hl1 & Hm1).
      rewrite Hlab in Hlab'. injection Hlab' as <-.
      apply Qlt_bool_iff in Hlt. rewrite Hlt in Hl1, Hm1.
      eapply segmentation_kept; try eassumption.
      intros j' c' Hj'. apply Qlt_le_weak.
      apply (Hothers (Datatypes.S j') c'); [discriminate | exact Hj'].
    + assert (Hrest : forall j' c', j' <> j ->
                nth_error (bids_from st1 rest) j' = Some (Some c') -> c' < c)
        by (intros j' c' Hne Hj'; apply (Hothers (Datatypes.S j') c');
            [congruence | exact Hj']).
      destruct (bid segmentation_key gs st S0 i) as [a|] eqn:Eb.
      * destruct Hstep as (label0 & _ & Hl1 & Hm1).
        assert (Ha : a < c) by (apply (Hothers 0%nat a); [discriminate | reflexivity]).
        eapply (IH st1 j (if Qlt_bool mx a then a else mx)); try eassumption.
        destruct (Qlt_bool mx a); assumption.
      * destruct Hstep as (Hl1 & Hm1). eapply (IH st1 j mx); eassumption.
Qed.

Lemma bids_in_range structures st st' j c :
  grid_shaped n st ->
  compose segmentation_key gs st structures = Ok st' ->
  nth_error (bids_from st structures) j = Some (Some c) -> (i < n)%nat.
Proof.
  revert st j. induction structures as [|S rest IH]; intros st j Hn H Hj.
  - destruct j; discriminate.
  - apply compose_cons in H. destruct H as (st1 & H1 & H).
    rewrite (bids_cons _ _ rest H1) in Hj. destruct j as [|j]; simpl in Hj.
    + injection Hj as Hj. unfold bid in Hj.
      destruct Hn as (Hgn & _). rewrite <- Hgn. apply nth_error_Some.
      rewrite active_mask_pointwise, nth_error_zipWith in Hj.
      destruct (nth_error (global_volume_fractions st) i); [discriminate|].
      destruct (properties_for_wavelength S gs (WAVELENGTH gs) segmentation_key);
        discriminate.
    + apply (IH st1 j); try assumption.
      eapply compose_structure_shape; eassumption.
Qed.

End SegmentationPass.

(** * The claims *)

(** ** Cumulative occupancy *)

(** C5. The cumulative occupancy of every voxel lies in [0, 1] after each
    structure is processed.  The update of one structure keeps the bound:
    from a state whose [global_volume_fractions] lies in [0, 1] everywhere,
    processing any structure, whatever its occupancy field, gives a state
    with the same bound; and the pass starts from zero, so every state the
    pass reaches has the bound.  The bound comes from the clamping of the
    update: nothing is asked of the occupancy fields. *)
Theorem cumulative_occupancy_in_unit_interval
    {C : Collaborators} (gs : global_settings) :
  (forall (st st' : state) (S : structure),
     Forall (fun g => 0 <= g <= 1) (global_volume_fractions st) ->
     compose_structure DATA_FIELD_SEGMENTATION gs st S = Ok st' ->
     Forall (fun g => 0 <= g <= 1) (global_volume_fractions st'))
  /\
  (forall (structures : list structure) (st : state),
     composite gs structures = Ok st ->
     Forall (fun g => 0 <= g <= 1) (global_volume_fractions st)).
Proof.
  split.
  - intros st st' S Hb H. eapply compose_structure_bounds; eassumption.
  - intros structures st H. eapply composite_bounds; eassumption.
Qed.

Lemma cumulative_occupancy_in_unit_interval_witness :
  Forall (fun g => 0 <= g <= 1) (global_volume_fractions Phantom.after_AB) /\
  Forall (fun g => 0 <= g <= 1) (global_volume_fractions Phantom.after_A).
Proof.
  split.
  - apply (proj1 (@cumulative_occupancy_in_unit_interval Phantom.collaborators
                    Phantom.settings) Phantom.after_A Phantom.after_AB Phantom.B).
    + repeat constructor; vm_compute; discriminate.
    + vm_compute. reflexivity.
  - apply (proj2 (@cumulative_occupancy_in_unit_interval Phantom.collaborators
                    Phantom.settings) [Phantom.A] Phantom.after_A).
    vm_compute. reflexivity.
Defined.

(** C2. Let a structure be processed in a state the pass has reached, and
    take a voxel in its mask: the structure's occupancy [sv] there is positive
    and the cumulative occupancy [g] is below 1.  The fraction [c] the
    structure newly claims there is what is added to the cumulative
    occupancy; it is [sv] itself if [g + sv <= 1], and [min (1 - g) sv] if
    [g + sv > 1]. *)
Theorem newly_claimed_fraction
    {C : Collaborators} (gs : global_settings) (pre : list structure)
    (S : structure) (st st' : state) (i : nat) (g sv : Q) :
  composite gs pre = Ok st ->
  compose_structure DATA_FIELD_SEGMENTATION gs st S = Ok st' ->
  nth_error (global_volume_fractions st) i = Some g ->
  nth_error (geometrical_volume S) i = Some sv ->
  0 < sv -> g < 1 ->
  exists c,
    nth_error (added_volume_fraction (global_volume_fractions st)
                 (geometrical_volume S)) i = Some c /\
    nth_error (global_volume_fractions st') i = Some (g + c) /\
    (g + sv <= 1 -> c = sv) /\
    (1 < g + sv -> c = Qmin (1 - g) sv).
Proof.
  intros Hpre Hstep Hg Hs Hpos Hroom.
  assert (Ha : active g sv = true) by (apply active_true_iff; auto).
  assert (H0 : 0 <= g).
  { pose proof (composite_bounds _ _ Hpre) as Hb.
    rewrite Forall_forall in Hb. apply (Hb g). eapply nth_error_In; eassumption. }
  pose proof Hstep as Hlen. apply compose_structure_ok in Hlen.
  destruct Hlen as (Hlen & _ & _).
  exists (claimed g sv). repeat split.
  - apply nth_error_added_volume_fraction; assumption.
  - erewrite compose_structure_occupancy by eassumption.
    unfold occupy. rewrite Ha. reflexivity.
  - intros Hle. apply claimed_fits; assumption.
  - intros Hgt. apply claimed_clamped; assumption.
Qed.

Lemma newly_claimed_fraction_witness :
  exists c,
    nth_error (added_volume_fraction [6 # 10; 1] [6 # 10; 1]) 0 = Some c /\
    nth_error [100 # 100; 1] 0 = Some ((6 # 10) + c) /\
    ((6 # 10) + (6 # 10) <= 1 -> c = 6 # 10) /\
    (1 < (6 # 10) + (6 # 10) -> c = Qmin (1 - (6 # 10)) (6 # 10)).
Proof.
  apply (@newly_claimed_fraction Phantom.collaborators Phantom.settings
           [Phantom.A] Phantom.B
           {| volumes := [("mua"%string, [12 # 10; 2]); ("seg"%string, [1; 1])];
              global_volume_fractions := [6 # 10; 1];
              max_added_fractions := [6 # 10; 1] |}
           {| volumes := [("mua"%string, [520 # 100; 2]); ("seg"%string, [1; 1])];
              global_volume_fractions := [100 # 100; 1];
              max_added_fractions := [6 # 10; 1] |}
           0%nat (6 # 10) (6 # 10));
    vm_compute; reflexivity.
Defined.

(** ** Frame properties *)

(** C7. If the property lookup of a structure gives [None] for a key, then
    processing the structure leaves the field stored under that key as it
    was, at every voxel, the voxels the structure claims included: absence is
    no update, not a contribution of zero. *)
Theorem absent_property_leaves_field
    (segmentation_key : key) (gs : global_settings) (st st' : state)
    (S : structure) (K : key) :
  compose_structure segmentation_key gs st S = Ok st' ->
  properties_for_wavelength S gs (WAVELENGTH gs) K = PNone ->
  field K (volumes st') = field K (volumes st).
Proof.
  intros H HK. apply compose_structure_ok in H. destruct H as (_ & Hacc & _).
  eapply accumulate_absent; eassumption.
Qed.

Lemma absent_property_leaves_field_witness :
  field "mua"%string [("mua"%string, [12 # 10; 2]); ("seg"%string, [1; 1])] =
  field "mua"%string [("mua"%string, [12 # 10; 2]); ("seg"%string, [1; 1])].
Proof.
  apply (@absent_property_leaves_field "seg"%string Phantom.settings
           {| volumes := [("mua"%string, [12 # 10; 2]); ("seg"%string, [1; 1])];
              global_volume_fractions := [6 # 10; 1];
              max_added_fractions := [6 # 10; 1] |}
           {| volumes := [("mua"%string, [12 # 10; 2]); ("seg"%string, [1; 1])];
              global_volume_fractions := [90 # 100; 1];
              max_added_fractions := [6 # 10; 1] |}
           Phantom.bare "mua"%string);
    vm_compute; reflexivity.
Defined.

(** C10. At a voxel of the grid where every structure of the pass has
    occupancy 0, nothing is ever written: after the pass the cumulative
    occupancy, the maximum applied fraction and every property field,
    segmentation included, still hold the zero they were allocated with, and
    so does every returned array. *)
Theorem untouched_voxel_keeps_zero
    {C : Collaborators} (gs : global_settings) (structures : list structure)
    (st : state) (i : nat) :
  composite gs structures = Ok st ->
  (i < voxels gs)%nat ->
  (forall S sv, In S structures ->
                nth_error (geometrical_volume S) i = Some sv -> sv == 0) ->
  nth_error (global_volume_fractions st) i = Some 0 /\
  nth_error (max_added_fractions st) i = Some 0 /\
  voxel_view i (volumes st) = map (fun k => (k, Some 0)) (property_tags gs) /\
  (forall out, finish gs structures = Ok out ->
               output_view i out = map (fun k => (k, Some 0)) (property_tags gs)).
Proof.
  intros H Hi Hzero.
  pose proof H as H'. apply composite_ok in H'. destruct H' as (st0 & H0 & Hpass).
  pose proof (initial_state_shape _ H0) as Hshape.
  apply initial_state_ok in H0. destruct H0 as (Hv0 & Hg0 & Hm0).
  edestruct compose_inactive with (i := i) (g := 0) as (Hg & Hm & Hv);
    [exact Hshape | exact Hpass | | | ].
  - rewrite Hg0. apply nth_error_zeros. assumption.
  - intros S sv HS Hsv. apply active_empty.
    rewrite (Hzero S sv HS Hsv). apply Qle_refl.
  - assert (Hview : voxel_view i (volumes st) =
                    map (fun k => (k, Some 0)) (property_tags gs)).
    { rewrite Hv, Hv0. unfold voxel_view. rewrite map_map. simpl.
      apply map_ext. intros k. rewrite nth_error_zeros by assumption.
      reflexivity. }
    repeat split.
    + assumption.
    + rewrite Hm, Hm0. apply nth_error_zeros. assumption.
    + assumption.
    + intros out Hout. apply finish_ok in Hout.
      destruct Hout as (st2 & Hst2 & _ & ->).
      rewrite H in Hst2. inv_ok. rewrite materialize_view. assumption.
Qed.

Lemma untouched_voxel_keeps_zero_witness :
  nth_error [90 # 100; 0] 1 = Some 0 /\
  nth_error [6 # 10; 0] 1 = Some 0 /\
  voxel_view 1 [("mua"%string, [12 # 10; 0]); ("seg"%string, [1; 0])] =
    map (fun k => (k, Some 0)) ["mua"%string; "seg"%string] /\
  (forall out,
     finish (C := Phantom.collaborators) Phantom.settings
       [Phantom.layer [6 # 10; 0] (PScalar 1) (PScalar 2); Phantom.bare] = Ok out ->
     output_view 1 out = map (fun k => (k, Some 0)) ["mua"%string; "seg"%string]).
Proof.
  apply (@untouched_voxel_keeps_zero Phantom.collaborators Phantom.settings
           [Phantom.layer [6 # 10; 0] (PScalar 1) (PScalar 2); Phantom.bare]
           {| volumes := [("mua"%string, [12 # 10; 0]); ("seg"%string, [1; 0])];
              global_volume_fractions := [90 # 100; 0];
              max_added_fractions := [6 # 10; 0] |} 1%nat).
  - vm_compute. reflexivity.
  - vm_compute. lia.
  - intros S sv [<-|[<-|[]]]; vm_compute; intros E; inversion E; reflexivity.
Defined.

(** C6. Once the cumulative occupancy of a voxel has reached 1, no structure
    processed later changes the cumulative occupancy, the maximum applied
    fraction or any property field at that voxel.  In particular, when two
    structures [A] and [B], processed in this order, both have occupancy 1
    at a voxel, then [A] claims the full voxel, the segmentation label
    there is the label of [A], and after [B] every field holds at that voxel
    what it held after [A]. *)
Theorem closed_voxel_is_final {C : Collaborators} (gs : global_settings) :
  (forall (pre later : list structure) (st st' : state) (i : nat) (g : Q),
     composite gs pre = Ok st ->
     compose DATA_FIELD_SEGMENTATION gs st later = Ok st' ->
     nth_error (global_volume_fractions st) i = Some g ->
     g == 1 ->
     nth_error (global_volume_fractions st') i = Some g /\
     nth_error (max_added_fractions st') i = nth_error (max_added_fractions st) i /\
     voxel_view i (volumes st') = voxel_view i (volumes st))
  /\
  (forall (A B : structure) (st : state) (i : nat) (a b label : Q),
     composite gs [A; B] = Ok st ->
     In DATA_FIELD_SEGMENTATION (property_tags gs) ->
     nth_error (geometrical_volume A) i = Some a -> a == 1 ->
     nth_error (geometrical_volume B) i = Some b -> b == 1 ->
     properties_for_wavelength A gs (WAVELENGTH gs) DATA_FIELD_SEGMENTATION
       = PScalar label ->
     exists stA,
       composite gs [A] = Ok stA /\
       nth_error (added_volume_fraction (zeros (voxels gs)) (geometrical_volume A)) i
         = Some a /\
       nth_error (global_volume_fractions stA) i = Some (0 + a) /\
       field_at DATA_FIELD_SEGMENTATION (volumes st) i = Some label /\
       nth_error (global_volume_fractions st) i
         = nth_error (global_volume_fractions stA) i /\
       nth_error (max_added_fractions st) i
         = nth_error (max_added_fractions stA) i /\
       voxel_view i (volumes st) = voxel_view i (volumes stA)).
Proof.
  assert (Hclosed :
    forall pre later st st' i g,
      composite gs pre = Ok st ->
      compose DATA_FIELD_SEGMENTATION gs st later = Ok st' ->
      nth_error (global_volume_fractions st) i = Some g ->
      g == 1 ->
      nth_error (global_volume_fractions st') i = Some g /\
      nth_error (max_added_fractions st') i = nth_error (max_added_fractions st) i /\
      voxel_view i (volumes st') = voxel_view i (volumes st)).
  { intros pre later st st' i g Hpre Hlater Hg Hone.
    eapply compose_inactive; try eassumption.
    - eapply composite_shape; eassumption.
    - intros S sv _ _. apply active_closed. rewrite Hone. apply Qle_refl. }
  split; [exact Hclosed|].
  intros A B st i a b label Hrun Hkey HA Ha HB Hb Hlabel.
  change [A; B] with ([A] ++ [B]) in Hrun.
  apply composite_app in Hrun. destruct Hrun as (stA & HrunA & HrunB).
  exists stA. split; [assumption|].
  pose proof HrunA as H0. apply composite_ok in H0.
  destruct H0 as (st0 & Hinit & HpassA).
  apply compose_cons in HpassA. destruct HpassA as (st1 & HstepA & E).
  simpl in E. inv_ok.
  pose proof (initial_state_shape _ Hinit) as (Hgn & Hmn & Hvn).
  apply initial_state_ok in Hinit. destruct Hinit as (Hv0 & Hg0 & Hm0).
  pose proof HstepA as Hok. apply compose_structure_ok in Hok.
  destruct Hok as (Hlen & Hacc & Hocc).
  assert (Hi : (i < voxels gs)%nat).
  { rewrite <- Hgn, <- Hlen. apply nth_error_Some. congruence. }
  assert (Hact : active 0 a = true) by (apply active_true_iff; lra).
  assert (Hclaim : claimed 0 a = a) by (apply claimed_fits; auto; lra).
  assert (Havf : nth_error (added_volume_fraction (zeros (voxels gs))
                              (geometrical_volume A)) i = Some a).
  { rewrite <- Hclaim. apply nth_error_added_volume_fraction; auto.
    - rewrite length_zeros. congruence.
    - apply nth_error_zeros. assumption. }
  assert (HgA : nth_error (global_volume_fractions stA) i = Some (0 + a)).
  { rewrite Hocc, Hg0, nth_error_zipWith, nth_error_zeros, HA by assumption.
    unfold occupy. rewrite Hact, Hclaim. reflexivity. }
  destruct (Hclosed [A] [B] stA st i (0 + a) HrunA HrunB HgA) as (Hg' & Hm' & Hv');
    [lra|].
  repeat split; try assumption; try congruence.
  rewrite (field_at_view _ _ _ _ Hv'). unfold field_at.
  pose proof Hacc as Hseg.
  eapply accumulate_segmentation_field in Hseg;
    [ | exact Hlabel | rewrite Hv0; apply field_allocated; exact Hkey ].
  rewrite Hseg, Hg0, Hm0.
  erewrite nth_error_masked_fill;
    [ | rewrite nth_error_segmentation_selector, Havf, nth_error_zeros by assumption;
        rewrite (nth_error_active_mask _ _ _
                   (nth_error_zeros Hi) HA); reflexivity
      | apply nth_error_zeros; assumption ].
  rewrite Hact.
  assert (E : Qlt_bool 0 a = true) by (apply Qlt_bool_iff; lra).
  rewrite E. reflexivity.
Qed.

Lemma closed_voxel_is_final_witness :
  (nth_error (global_volume_fractions Phantom.after_AB) 1 = Some 1 /\
   nth_error (max_added_fractions Phantom.after_AB) 1
     = nth_error (max_added_fractions Phantom.after_A) 1 /\
   voxel_view 1 (volumes Phantom.after_AB) = voxel_view 1 (volumes Phantom.after_A))
  /\
  (exists stA,
     composite (C := Phantom.collaborators) Phantom.settings [Phantom.A] = Ok stA /\
     nth_error (added_volume_fraction (zeros 2) (geometrical_volume Phantom.A)) 1
       = Some 1 /\
     nth_error (global_volume_fractions stA) 1 = Some (0 + 1) /\
     field_at "seg"%string (volumes Phantom.after_AB) 1 = Some 1 /\
     nth_error (global_volume_fractions Phantom.after_AB) 1
       = nth_error (global_volume_fractions stA) 1 /\
     nth_error (max_added_fractions Phantom.after_AB) 1
       = nth_error (max_added_fractions stA) 1 /\
     voxel_view 1 (volumes Phantom.after_AB) = voxel_view 1 (volumes stA)).
Proof.
  split.
  - apply (proj1 (@closed_voxel_is_final Phantom.collaborators Phantom.settings)
             [Phantom.A] [Phantom.B] Phantom.after_A Phantom.after_AB 1%nat 1);
      vm_compute; reflexivity.
  - apply (proj2 (@closed_voxel_is_final Phantom.collaborators Phantom.settings)
             Phantom.A Phantom.B Phantom.after_AB 1%nat 1 1 1);
      try (vm_compute; reflexivity).
    simpl. auto.
Defined.

(** ** Segmentation *)

(** C4. With distinct property keys: when a structure that carries a
    segmentation label is processed, the segmentation field takes its label
    at exactly the voxels of its mask where its newly claimed fraction is
    strictly greater than the maximum applied fraction recorded so far, and
    the maximum applied fraction becomes the newly claimed fraction there;
    every other voxel keeps both.  Hence, after the full pass, a voxel has the
    label of the structure whose claimed fraction there, among the structures
    that carry a segmentation property and have the voxel in their mask, is
    strictly the largest, whether or not it was processed last. *)
Theorem segmentation_goes_to_largest_claim
    {C : Collaborators} (gs : global_settings) :
  NoDup (property_tags gs) ->
  (forall (pre : list structure) (S : structure) (st st' : state)
          (label : Q) (i : nat) (b : bool) (a x old : Q),
     composite gs pre = Ok st ->
     compose_structure DATA_FIELD_SEGMENTATION gs st S = Ok st' ->
     properties_for_wavelength S gs (WAVELENGTH gs) DATA_FIELD_SEGMENTATION
       = PScalar label ->
     nth_error (active_mask (global_volume_fractions st) (geometrical_volume S)) i
       = Some b ->
     nth_error (added_volume_fraction (global_volume_fractions st)
                  (geometrical_volume S)) i = Some a ->
     nth_error (max_added_fractions st) i = Some x ->
     field_at DATA_FIELD_SEGMENTATION (volumes st) i = Some old ->
     field_at DATA_FIELD_SEGMENTATION (volumes st') i
       = Some (if (b && Qlt_bool x a)%bool then label else old) /\
     nth_error (max_added_fractions st') i
       = Some (if (b && Qlt_bool x a)%bool then a else x))
  /\
  (forall (structures : list structure) (st : state) (j : nat) (S : structure)
          (label : Q) (i : nat) (c : Q),
     composite gs structures = Ok st ->
     In DATA_FIELD_SEGMENTATION (property_tags gs) ->
     nth_error structures j = Some S ->
     properties_for_wavelength S gs (WAVELENGTH gs) DATA_FIELD_SEGMENTATION
       = PScalar label ->
     nth_error (pass_bids gs structures i) j = Some (Some c) ->
     (forall j' c', j' <> j ->
        nth_error (pass_bids gs structures i) j' = Some (Some c') -> c' < c) ->
     field_at DATA_FIELD_SEGMENTATION (volumes st) i = Some label).
Proof.
  intros Hnd. split.
  - intros pre S st st' label i b a x old Hpre Hstep Hlab Hb Ha Hx Hold.
    assert (Hkeys : NoDup (map fst (volumes st)))
      by (rewrite (composite_keys _ _ Hpre); assumption).
    pose proof (segmentation_step DATA_FIELD_SEGMENTATION gs i S
                  (composite_shape _ _ Hpre) Hkeys Hstep Hold Hx) as H.
    unfold bid in H. rewrite Hlab, Hb in H. destruct b; simpl.
    + rewrite Ha in H. destruct H as (label' & Hlab' & Hl & Hm).
      injection Hlab' as <-. auto.
    + assumption.
  - intros structures st j S label i c Hrun Hkey HS Hlab Hj Hothers.
    apply composite_ok in Hrun. destruct Hrun as (st0 & Hinit & Hpass).
    unfold pass_bids in Hj, Hothers. rewrite Hinit in Hj, Hothers.
    pose proof (initial_state_shape _ Hinit) as Hshape.
    assert (Hi : (i < voxels gs)%nat)
      by (eapply bids_in_range; [exact Hshape | exact Hpass | exact Hj]).
    assert (Hc : 0 < c)
      by (eapply bids_positive; [exact Hpass | exact Hj]).
    apply initial_state_ok in Hinit. destruct Hinit as (Hv0 & Hg0 & Hm0).
    eapply segmentation_winner with (mx := 0) (old := 0); try eassumption.
    + rewrite Hv0, map_map. simpl. rewrite map_id. assumption.
    + unfold field_at. rewrite Hv0, (field_allocated _ _ _ Hkey).
      apply nth_error_zeros. assumption.
    + rewrite Hm0. apply nth_error_zeros. assumption.
Qed.

Lemma segmentation_goes_to_largest_claim_witness :
  (field_at "seg"%string [("mua"%string, [35 # 10; 7]); ("seg"%string, [4; 4])] 0
     = Some (if (true && Qlt_bool (3 # 10) (5 # 10))%bool then 4 else 3) /\
   nth_error [5 # 10; 1] 0
     = Some (if (true && Qlt_bool (3 # 10) (5 # 10))%bool then 5 # 10 else 3 # 10))
  /\
  field_at "seg"%string [("mua"%string, [35 # 10; 7]); ("seg"%string, [4; 4])] 0
    = Some 4.
Proof.
  assert (Hnd : NoDup (property_tags (Collaborators := Phantom.collaborators)
                         Phantom.settings)).
  { repeat constructor; simpl; intuition discriminate. }
  split.
  - apply (proj1 (@segmentation_goes_to_largest_claim Phantom.collaborators
                    Phantom.settings Hnd)
             [Phantom.bare] Phantom.wide
             {| volumes := [("mua"%string, [0; 0]); ("seg"%string, [3; 0])];
                global_volume_fractions := [3 # 10; 0];
                max_added_fractions := [3 # 10; 0] |}
             {| volumes := [("mua"%string, [35 # 10; 7]); ("seg"%string, [4; 4])];
                global_volume_fractions := [80 # 100; 1];
                max_added_fractions := [5 # 10; 1] |}
             4 0%nat true (5 # 10) (3 # 10) 3);
      vm_compute; reflexivity.
  - apply (proj2 (@segmentation_goes_to_largest_claim Phantom.collaborators
                    Phantom.settings Hnd)
             [Phantom.wide; Phantom.bare]
             {| volumes := [("mua"%string, [35 # 10; 7]); ("seg"%string, [4; 4])];
                global_volume_fractions := [80 # 100; 1];
                max_added_fractions := [5 # 10; 1] |}
             0%nat Phantom.wide 4 0%nat (5 # 10)).
    + vm_compute. reflexivity.
    + simpl. auto.
    + reflexivity.
    + reflexivity.
    + vm_compute. reflexivity.
    + intros [|[|j']] c' Hne H; vm_compute in H.
      * congruence.
      * inversion H. vm_compute. reflexivity.
      * destruct j'; discriminate.
Defined.

(** ** The consistency validator *)

(** The test of line 109 holds for no field: an entry above 1 has an
    absolute value above the tolerance. *)
Lemma consistency_violated_never (gvf : tensor) : consistency_violated gvf = false.
Proof.
  unfold consistency_violated, any.
  induction gvf as [|g gvf IH]; simpl; [reflexivity|].
  destruct (Qlt_bool 1 g) eqn:E; simpl; [|exact IH].
  apply Qlt_bool_iff in E.
  assert (Hf : Qlt_bool (Qabs g) tolerance = false).
  { apply Qlt_bool_false_iff. rewrite Qabs_pos by lra. unfold tolerance. lra. }
  rewrite Hf. exact IH.
Qed.


(** ** Unsupported property types *)

Lemma starts_with_append (p s : string) : starts_with p (p ++ s) = true.
Proof.
  induction p as [|a p IH]; simpl; [reflexivity|].
  rewrite Ascii.eqb_refl. exact IH.
Qed.

Lemma occurs_in_append (a p s : string) :
  occurs_in p s = true -> occurs_in p (a ++ s) = true.
Proof.
  intros H. induction a as [|c a IH]; simpl; [exact H|].
  rewrite IH. apply orb_true_r.
Qed.

Lemma message_names_type (type_repr : string) :
  occurs_in type_repr (unsupported_type_message type_repr) = true.
Proof.
  unfold unsupported_type_message. apply occurs_in_append.
  destruct type_repr as [|c r]; [reflexivity|].
  simpl. rewrite Ascii.eqb_refl, starts_with_append. reflexivity.
Qed.

Section UnsupportedFacts.

Variable segmentation_key : key.
Variable structure_properties : key -> prop_value.
Variable m : mask.
Variable avf : tensor.

Lemma accumulate_supported vols maf :
  Forall (fun kt => supported segmentation_key (length m) (fst kt)
                      (structure_properties (fst kt)) = true) vols ->
  exists r, accumulate segmentation_key structure_properties m avf vols maf = Ok r.
Proof.
  revert maf. induction vols as [|[k t] rest IH]; intros maf Hs.
  - simpl. eauto.
  - apply Forall_cons_iff in Hs. destruct Hs as [Hk Hrest]. simpl in Hk.
    assert (Hupd : exists r, update_field segmentation_key structure_properties
                               m avf k t maf = Ok r).
    { unfold update_field, supported in *.
      destruct (structure_properties k) as [|p|c|ty]; try discriminate; eauto.
      - apply andb_true_iff in Hk. destruct Hk as [Hne Hlen].
        apply negb_true_iff in Hne. rewrite Hne, Hlen. eauto.
      - destruct (String.eqb k segmentation_key); eauto. }
    destruct Hupd as [[t' maf1] Hupd]. destruct (IH maf1 Hrest) as [[rest' maf2] Hacc].
    simpl. rewrite Hupd. simpl. rewrite Hacc. simpl. eauto.
Qed.

(** The key loop stops at the first key it cannot process. *)
Lemma accumulate_raises_at pre k t post maf r e :
  accumulate segmentation_key structure_properties m avf pre maf = Ok r ->
  update_field segmentation_key structure_properties m avf k t (snd r) = Raise e ->
  accumulate segmentation_key structure_properties m avf
    (pre ++ (k, t) :: post) maf = Raise e.
Proof.
  revert maf r. induction pre as [|[k0 t0] pre IH]; intros maf r Hpre Hk.
  - simpl in Hpre. inv_ok. simpl in *. rewrite Hk. reflexivity.
  - destruct r as [vols' maf']. apply accumulate_cons in Hpre.
    destruct Hpre as (t' & maf1 & rest' & H1 & H2 & ->).
    simpl. rewrite H1. simpl.
    rewrite (IH maf1 (rest', maf') H2 Hk). reflexivity.
Qed.

Lemma update_field_unsupported k t maf type_repr :
  k <> segmentation_key ->
  structure_properties k = POther type_repr ->
  update_field segmentation_key structure_properties m avf k t maf =
  Raise (ValueError (unsupported_type_message type_repr)).
Proof.
  intros Hk Hv. apply String.eqb_neq in Hk.
  unfold update_field. rewrite Hv, Hk. reflexivity.
Qed.

End UnsupportedFacts.

Lemma compose_raises_at segmentation_key gs st pre S post st1 e :
  compose segmentation_key gs st pre = Ok st1 ->
  compose_structure segmentation_key gs st1 S = Raise e ->
  compose segmentation_key gs st (pre ++ S :: post) = Raise e.
Proof.
  revert st. induction pre as [|s pre IH]; intros st Hpre HS; simpl in *.
  - inv_ok. rewrite HS. reflexivity.
  - apply bind_ok in Hpre. destruct Hpre as (st2 & H2 & Hpre).
    rewrite H2. simpl. auto.
Qed.

Lemma fields_split (vols : list (key * tensor)) kpre k kpost :
  map fst vols = kpre ++ k :: kpost ->
  exists pre t post, vols = pre ++ (k, t) :: post /\ map fst pre = kpre.
Proof.
  revert kpre. induction vols as [|[k0 t0] vols IH]; intros kpre H.
  - destruct kpre; discriminate.
  - destruct kpre as [|k1 kpre]; simpl in H; injection H as -> H.
    + exists [], t0, vols. auto.
    + destruct (IH kpre H) as (pre & t & post & -> & Hpre).
      exists ((k1, t0) :: pre), t, post. simpl. rewrite Hpre. auto.
Qed.

(** C3, amended.  Let the property tags be [kpre ++ k :: kpost], let the pass
    have got through the structures before [S], and let [S] be grid-shaped.
    If the property of [S] under the key [k], which is not the segmentation
    key, is neither absent nor a tensor nor an accepted number, and its
    properties under the keys before [k] can be processed, then the call
    raises [ValueError] with the message "Unsupported type of structure
    property. Was <type>.": the message names the actual type, and nothing in
    it depends on the key. *)
Theorem unsupported_property_type_raises
    {C : Collaborators} (gs : global_settings) (spre spost : list structure)
    (S : structure) (st : state) (kpre kpost : list key) (k : key)
    (type_repr : string) :
  composite gs spre = Ok st ->
  length (geometrical_volume S) = voxels gs ->
  property_tags gs = kpre ++ k :: kpost ->
  Forall (fun k' => supported DATA_FIELD_SEGMENTATION (voxels gs) k'
                      (properties_for_wavelength S gs (WAVELENGTH gs) k') = true)
         kpre ->
  k <> DATA_FIELD_SEGMENTATION ->
  properties_for_wavelength S gs (WAVELENGTH gs) k = POther type_repr ->
  finish gs (spre ++ S :: spost)
    = Raise (ValueError (unsupported_type_message type_repr)) /\
  occurs_in type_repr (unsupported_type_message type_repr) = true.
Proof.
  intros Hrun Hlen Htags Hsup Hk Hv.
  split; [|apply message_names_type].
  pose proof (composite_shape _ _ Hrun) as (Hgn & Hmn & Hvn).
  pose proof (composite_keys _ _ Hrun) as Hkeys. rewrite Htags in Hkeys.
  apply fields_split in Hkeys. destruct Hkeys as (pre & t & post & Hvols & Hpre).
  apply composite_ok in Hrun. destruct Hrun as (st0 & Hinit & Hpass).
  unfold finish, run_pass. rewrite Hinit. simpl.
  erewrite compose_raises_at; [reflexivity | exact Hpass |].
  unfold compose_structure.
  assert (E : Nat.eqb (length (geometrical_volume S))
                (length (global_volume_fractions st)) = true)
    by (apply Nat.eqb_eq; congruence).
  rewrite E, Hvols.
  set (m := active_mask (global_volume_fractions st) (geometrical_volume S)).
  assert (Hm : length m = voxels gs)
    by (unfold m; rewrite length_active_mask; congruence).
  edestruct accumulate_supported with (vols := pre) as [r Hr].
  { rewrite Hm. rewrite <- Hpre in Hsup. rewrite Forall_map in Hsup. exact Hsup. }
  erewrite accumulate_raises_at; [reflexivity | exact Hr |].
  apply update_field_unsupported; assumption.
Qed.

Lemma unsupported_property_type_raises_witness :
  finish (C := Phantom.collaborators) Phantom.settings
    ([Phantom.bare] ++ Phantom.broken :: [Phantom.B])
    = Raise (ValueError (unsupported_type_message "<class 'str'>"%string)) /\
  occurs_in "<class 'str'>"%string (unsupported_type_message "<class 'str'>"%string) = true.
Proof.
  apply (@unsupported_property_type_raises Phantom.collaborators Phantom.settings
           [Phantom.bare] [Phantom.B] Phantom.broken
           {| volumes := [("mua"%string, [0; 0]); ("seg"%string, [3; 0])];
              global_volume_fractions := [3 # 10; 0];
              max_added_fractions := [3 # 10; 0] |}
           [] ["seg"%string] "mua"%string "<class 'str'>"%string).
  - vm_compute. reflexivity.
  - reflexivity.
  - reflexivity.
  - constructor.
  - discriminate.
  - reflexivity.
Defined.

(** C3 as stated fails: the absorption of the layer [broken] is a string, the
    call raises [ValueError], and the message names the type of the value
    but not the key "mua" it was stored under. *)
Lemma unsupported_type_message_omits_key :
  properties_for_wavelength Phantom.broken Phantom.settings
    (WAVELENGTH Phantom.settings) "mua"%string = POther "<class 'str'>"%string /\
  exists msg,
    finish (C := Phantom.collaborators) Phantom.settings [Phantom.broken]
      = Raise (ValueError msg) /\
    occurs_in "<class 'str'>"%string msg = true /\
    occurs_in "mua"%string msg = false.
Proof.
  split; [reflexivity|]. eexists.
  split; [vm_compute; reflexivity|].
  split; vm_compute; reflexivity.
Qed.

(** ** The returned volumes *)

(** C8. When the call succeeds, the returned mapping has exactly the tracked
    property keys, in their order; every key is given a double-precision
    numpy array, hence host memory, with one entry for every voxel of the
    grid; and the entries are the accumulated field values, unaltered. *)
Theorem returned_volumes_are_accumulated_fields
    {C : Collaborators} (gs : global_settings) (structures : list structure)
    (out : list (key * ndarray)) :
  finish gs structures = Ok out ->
  exists st,
    composite gs structures = Ok st /\
    map fst out = property_tags gs /\
    Forall (fun ka => nd_dtype (snd ka) = float64 /\
                      length (nd_data (snd ka)) = voxels gs) out /\
    map (fun ka => (fst ka, nd_data (snd ka))) out = volumes st.
Proof.
  intros H. apply finish_ok in H. destruct H as (st & Hrun & _ & ->).
  exists st. split; [assumption|].
  pose proof (composite_shape _ _ Hrun) as (_ & _ & Hvn).
  unfold materialize. repeat split.
  - rewrite map_map. simpl. apply (composite_keys _ _ Hrun).
  - apply Forall_map. simpl. eapply Forall_impl; [|exact Hvn].
    intros kt Hkt. simpl. auto.
  - rewrite map_map. simpl. rewrite <- (map_id (volumes st)) at 2.
    apply map_ext. intros [k t]. reflexivity.
Qed.

Lemma returned_volumes_are_accumulated_fields_witness :
  exists st,
    composite (C := Phantom.collaborators) Phantom.settings [Phantom.A; Phantom.B]
      = Ok st /\
    map fst [("mua"%string, to_numpy_float64 [520 # 100; 2]);
             ("seg"%string, to_numpy_float64 [1; 1])]
      = property_tags (Collaborators := Phantom.collaborators) Phantom.settings /\
    Forall (fun ka => nd_dtype (snd ka) = float64 /\
                      length (nd_data (snd ka))
                        = voxels (C := Phantom.collaborators) Phantom.settings)
           [("mua"%string, to_numpy_float64 [520 # 100; 2]);
            ("seg"%string, to_numpy_float64 [1; 1])] /\
    map (fun ka => (fst ka, nd_data (snd ka)))
        [("mua"%string, to_numpy_float64 [520 # 100; 2]);
         ("seg"%string, to_numpy_float64 [1; 1])]
      = volumes st.
Proof.
  apply (@returned_volumes_are_accumulated_fields Phantom.collaborators
           Phantom.settings [Phantom.A; Phantom.B]).
  vm_compute. reflexivity.
Defined.

(** * Further properties of the pass *)

(** ** The consistency error *)

Lemma bind_raise {A B : Type} (r : result A) (k : A -> result B) (e : exception) :
  bind r k = Raise e -> r = Raise e \/ exists a, r = Ok a /\ k a = Raise e.
Proof.
  destruct r as [a|e']; simpl; intros H; [right; eauto | left; congruence].
Qed.

Lemma update_field_no_assertion segmentation_key structure_properties m avf
    k t maf msg :
  update_field segmentation_key structure_properties m avf k t maf
    <> Raise (AssertionError msg).
Proof.
  unfold update_field.
  destruct (structure_properties k) as [|p|c|ty];
    destruct (String.eqb k segmentation_key);
    try destruct (Nat.eqb (length p) (length m)); discriminate.
Qed.

Lemma accumulate_no_assertion segmentation_key structure_properties m avf
    vols maf msg :
  accumulate segmentation_key structure_properties m avf vols maf
    <> Raise (AssertionError msg).
Proof.
  revert maf. induction vols as [|[k t] rest IH]; intros maf H; simpl in H.
  - discriminate.
  - apply bind_raise in H. destruct H as [H|([t' maf1] & _ & H)].
    + exact (update_field_no_assertion _ _ _ _ _ _ _ H).
    + apply bind_raise in H. destruct H as [H|([rest' maf2] & _ & H)].
      * exact (IH _ H).
      * discriminate.
Qed.

Lemma compose_no_assertion segmentation_key gs structures st msg :
  compose segmentation_key gs st structures <> Raise (AssertionError msg).
Proof.
  revert st. induction structures as [|S rest IH]; intros st H; simpl in H.
  - discriminate.
  - apply bind_raise in H. destruct H as [H|(st1 & _ & H)].
    + unfold compose_structure in H.
      destruct (Nat.eqb _ _); [|discriminate].
      apply bind_raise in H. destruct H as [H|([vols maf] & _ & H)].
      * exact (accumulate_no_assertion _ _ _ _ _ _ H).
      * discriminate.
    + exact (IH _ H).
Qed.

(** X2. The test of line 109 holds for no tensor, so the consistency check
    passes whatever the cumulative occupancy is, an occupancy far above 1
    included; and no other line raises [AssertionError].  A call of
    [create_simulation_volume] therefore never ends in the consistency
    error, whatever the settings, the structures and the state of the world. *)
Theorem consistency_error_is_unreachable {C : Collaborators} (gs : global_settings) :
  (forall gvf : tensor, consistency_check gvf = Ok tt) /\
  (forall (w : world) (msg : string),
     fst (create_simulation_volume gs w) <> Raise (AssertionError msg)).
Proof.
  assert (Hcheck : forall gvf : tensor, consistency_check gvf = Ok tt).
  { intros gvf. unfold consistency_check.
    rewrite consistency_violated_never. reflexivity. }
  split; [exact Hcheck|].
  intros w msg. rewrite create_simulation_volume_result.
  unfold finish, run_pass, initial_state, create_empty_volumes. intros H.
  destruct (volume_shape gs) as [[x y] z].
  destruct (_ || _)%bool; [discriminate|].
  destruct (property_tags gs) as [|k keys]; [discriminate|].
  simpl in H. apply bind_raise in H. destruct H as [H|(st & _ & H)].
  - exact (compose_no_assertion _ _ _ _ H).
  - rewrite Hcheck in H. discriminate.
Qed.

(** ** More on the segmentation field *)

Section SegmentationOwnership.

Variable segmentation_key : key.
Variable gs : global_settings.
Variable n : nat.
Variable i : nat.

Abbreviation owner_at st := (field_at segmentation_key (volumes st) i).
Abbreviation record_at st := (nth_error (max_added_fractions st) i).
Abbreviation bids_of st structures := (bids segmentation_key gs st structures i).

(** What one structure leaves at the voxel, without the case distinction
    on its bid: some label and some maximum are there again. *)
Lemma segmentation_step_total st S st' x old :
  grid_shaped n st -> NoDup (map fst (volumes st)) ->
  compose_structure segmentation_key gs st S = Ok st' ->
  owner_at st = Some old -> record_at st = Some x ->
  grid_shaped n st' /\ NoDup (map fst (volumes st')) /\
  exists old' x', owner_at st' = Some old' /\ record_at st' = Some x'.
Proof.
  intros Hn Hnd H Hl Hm.
  pose proof (segmentation_step segmentation_key gs i S Hn Hnd H Hl Hm) as Hstep.
  split; [eapply compose_structure_shape; eassumption|].
  split; [rewrite (compose_structure_keys _ _ _ _ H); assumption|].
  destruct (bid segmentation_key gs st S i) as [a|].
  - destruct Hstep as (label & _ & Hl1 & Hm1). eauto.
  - destruct Hstep as (Hl1 & Hm1). eauto.
Qed.

(** [max_added_fractions] never falls, is at least every bid of the pass,
    and is its starting value or one of the bids. *)
Lemma maximum_tracks_bids structures st st' mx old :
  grid_shaped n st -> NoDup (map fst (volumes st)) ->
  compose segmentation_key gs st structures = Ok st' ->
  owner_at st = Some old -> record_at st = Some mx ->
  exists mx',
    record_at st' = Some mx' /\ mx <= mx' /\
    (forall j c, nth_error (bids_of st structures) j = Some (Some c) -> c <= mx') /\
    (mx' = mx \/ exists j, nth_error (bids_of st structures) j = Some (Some mx')).
Proof.
  revert st mx old. induction structures as [|S rest IH];
    intros st mx old Hn Hnd H Hl Hm.
  - simpl in H. inv_ok. exists mx. repeat split; auto.
    + apply Qle_refl.
    + intros [|j] c Hj; discriminate.
  - apply compose_cons in H. destruct H as (st1 & H1 & H).
    rewrite (bids_cons segmentation_key gs i _ _ rest H1).
    pose proof (segmentation_step segmentation_key gs i S Hn Hnd H1 Hl Hm) as Hstep.
    destruct (segmentation_step_total _ Hn Hnd H1 Hl Hm) as (Hn1 & Hnd1 & _).
    destruct (bid segmentation_key gs st S i) as [a|] eqn:Eb.
    + destruct Hstep as (label & _ & Hl1 & Hm1).
      destruct (IH st1 _ _ Hn1 Hnd1 H Hl1 Hm1) as (mx' & Hm' & Hle & Hall & Hone).
      assert (Hmx : mx <= mx' /\ a <= mx').
      { destruct (Qlt_bool mx a) eqn:E;
          [apply Qlt_bool_iff in E | apply Qlt_bool_false_iff in E]; split; lra. }
      exists mx'. split; [assumption|]. split; [tauto|]. split.
      * intros [|j] c Hj; simpl in Hj.
        -- injection Hj as <-. tauto.
        -- eapply Hall; eassumption.
      * destruct Hone as [->|[j Hj]].
        -- destruct (Qlt_bool mx a); [right; exists 0%nat; reflexivity | left; reflexivity].
        -- right. exists (Datatypes.S j). exact Hj.
    + destruct Hstep as (Hl1 & Hm1).
      destruct (IH st1 _ _ Hn1 Hnd1 H Hl1 Hm1) as (mx' & Hm' & Hle & Hall & Hone).
      exists mx'. split; [assumption|]. split; [assumption|]. split.
      * intros [|j] c Hj; simpl in Hj; [discriminate|]. eapply Hall; eassumption.
      * destruct Hone as [->|[j Hj]]; [left; reflexivity|].
        right. exists (Datatypes.S j). exact Hj.
Qed.

(** On a tie the label stays with the structure processed first. *)
Lemma segmentation_first_maximum structures st st' j S label c mx old :
  grid_shaped n st -> NoDup (map fst (volumes st)) ->
  compose segmentation_key gs st structures = Ok st' ->
  owner_at st = Some old -> record_at st = Some mx -> mx < c ->
  nth_error structures j = Some S ->
  properties_for_wavelength S gs (WAVELENGTH gs) segmentation_key = PScalar label ->
  nth_error (bids_of st structures) j = Some (Some c) ->
  (forall j' c', (j' < j)%nat ->
     nth_error (bids_of st structures) j' = Some (Some c') -> c' < c) ->
  (forall j' c', (j < j')%nat ->
     nth_error (bids_of st structures) j' = Some (Some c') -> c' <= c) ->
  owner_at st' = Some label.
Proof.
  revert st j mx old.
  induction structures as [|S0 rest IH];
    intros st j mx old Hn Hnd H Hl Hm Hlt HS Hlab Hj Hbefore Hafter.
  - destruct j; discriminate.
  - apply compose_cons in H. destruct H as (st1 & H1 & H).
    rewrite (bids_cons segmentation_key gs i _ _ rest H1) in Hj, Hbefore, Hafter.
    pose proof (segmentation_step segmentation_key gs i S0 Hn Hnd H1 Hl Hm) as Hstep.
    destruct (segmentation_step_total _ Hn Hnd H1 Hl Hm) as (Hn1 & Hnd1 & _).
    destruct j as [|j]; simpl in HS, Hj.
    + injection HS as ->. injection Hj as Hj. rewrite Hj in Hstep.
      destruct Hstep as (label' & Hlab' & Hl1 & Hm1).
      rewrite Hlab in Hlab'. injection Hlab' as <-.
      apply Qlt_bool_iff in Hlt. rewrite Hlt in Hl1, Hm1.
      eapply segmentation_kept; try eassumption.
      intros j' c' Hj'. apply (Hafter (Datatypes.S j') c'); [lia | exact Hj'].
    + assert (Hb' : forall j' c', (j' < j)%nat ->
                nth_error (bids_of st1 rest) j' = Some (Some c') -> c' < c)
        by (intros j' c' Hlt' Hj'; apply (Hbefore (Datatypes.S j') c');
            [lia | exact Hj']).
      assert (Ha' : forall j' c', (j < j')%nat ->
                nth_error (bids_of st1 rest) j' = Some (Some c') -> c' <= c)
        by (intros j' c' Hlt' Hj'; apply (Hafter (Datatypes.S j') c');
            [lia | exact Hj']).
      destruct (bid segmentation_key gs st S0 i) as [a|] eqn:Eb.
      * destruct Hstep as (label0 & _ & Hl1 & Hm1).
        assert (Ha : a < c) by (apply (Hbefore 0%nat a); [lia | reflexivity]).
        eapply (IH st1 j (if Qlt_bool mx a then a else mx)); try eassumption.
        destruct (Qlt_bool mx a); assumption.
      * destruct Hstep as (Hl1 & Hm1). eapply (IH st1 j mx); eassumption.
Qed.

(** The label of a voxel is the one it had or the label of a structure of
    the pass: labels are never blended. *)
Lemma segmentation_label_origin structures st st' mx old :
  grid_shaped n st -> NoDup (map fst (volumes st)) ->
  compose segmentation_key gs st structures = Ok st' ->
  owner_at st = Some old -> record_at st = Some mx ->
  exists label,
    owner_at st' = Some label /\
    (label = old \/
     exists S, In S structures /\
       properties_for_wavelength S gs (WAVELENGTH gs) segmentation_key
         = PScalar label).
Proof.
  revert st mx old. induction structures as [|S rest IH];
    intros st mx old Hn Hnd H Hl Hm.
  - simpl in H. inv_ok. eauto.
  - apply compose_cons in H. destruct H as (st1 & H1 & H).
    pose proof (segmentation_step segmentation_key gs i S Hn Hnd H1 Hl Hm) as Hstep.
    destruct (segmentation_step_total _ Hn Hnd H1 Hl Hm) as (Hn1 & Hnd1 & _).
    destruct (bid segmentation_key gs st S i) as [a|].
    + destruct Hstep as (label0 & Hlab0 & Hl1 & Hm1).
      destruct (IH st1 _ _ Hn1 Hnd1 H Hl1 Hm1) as (label & Hfin & Horigin).
      exists label. split; [assumption|].
      destruct Horigin as [->|(S' & HS' & Hlab')].
      * destruct (Qlt_bool mx a); [right; exists S; simpl; auto | left; reflexivity].
      * right. exists S'. simpl. auto.
    + destruct Hstep as (Hl1 & Hm1).
      destruct (IH st1 _ _ Hn1 Hnd1 H Hl1 Hm1) as (label & Hfin & Horigin).
      exists label. split; [assumption|].
      destruct Horigin as [->|(S' & HS' & Hlab')]; [left; reflexivity|].
      right. exists S'. simpl. auto.
Qed.

End SegmentationOwnership.

Lemma initial_segmentation {C : Collaborators} (gs : global_settings) st0 i :
  initial_state gs = Ok st0 ->
  NoDup (property_tags gs) ->
  In DATA_FIELD_SEGMENTATION (property_tags gs) ->
  (i < voxels gs)%nat ->
  grid_shaped (voxels gs) st0 /\
  NoDup (map fst (volumes st0)) /\
  field_at DATA_FIELD_SEGMENTATION (volumes st0) i = Some 0 /\
  nth_error (max_added_fractions st0) i = Some 0.
Proof.
  intros H Hnd Hkey Hi. pose proof (initial_state_shape _ H) as Hshape.
  apply initial_state_ok in H. destruct H as (Hv0 & _ & Hm0).
  repeat split; try apply Hshape.
  - rewrite Hv0, map_map. simpl. rewrite map_id. assumption.
  - unfold field_at. rewrite Hv0, (field_allocated _ _ _ Hkey).
    apply nth_error_zeros. assumption.
  - rewrite Hm0. apply nth_error_zeros. assumption.
Qed.

(** X3. With distinct property keys, the segmentation key among them: after
    the pass [max_added_fractions] holds, at every voxel of the grid, the
    largest bid made for the voxel (the largest fraction claimed there by a
    structure that carries a segmentation property), and 0 if there was no
    bid. *)
Theorem max_added_fraction_is_largest_bid
    {C : Collaborators} (gs : global_settings) (structures : list structure)
    (st : state) (i : nat) :
  composite gs structures = Ok st ->
  NoDup (property_tags gs) ->
  In DATA_FIELD_SEGMENTATION (property_tags gs) ->
  (i < voxels gs)%nat ->
  exists mx,
    nth_error (max_added_fractions st) i = Some mx /\
    (forall j c, nth_error (pass_bids gs structures i) j = Some (Some c) -> c <= mx) /\
    (mx = 0 \/ exists j, nth_error (pass_bids gs structures i) j = Some (Some mx)).
Proof.
  intros H Hnd Hkey Hi. apply composite_ok in H. destruct H as (st0 & H0 & Hpass).
  unfold pass_bids. rewrite H0.
  edestruct initial_segmentation as (Hn & Hnd0 & Hl & Hm);
    [exact H0 | exact Hnd | exact Hkey | exact Hi |].
  edestruct maximum_tracks_bids as (mx & Hmx & _ & Hall & Hone);
    [exact Hn | exact Hnd0 | exact Hpass | exact Hl | exact Hm |].
  exists mx. auto.
Qed.

Lemma max_added_fraction_is_largest_bid_witness :
  exists st,
    composite (C := Phantom.collaborators) Phantom.settings
      [Phantom.bare; Phantom.wide] = Ok st /\
    exists mx,
      nth_error (max_added_fractions st) 0 = Some mx /\
      (forall j c,
         nth_error (pass_bids (C := Phantom.collaborators) Phantom.settings
                      [Phantom.bare; Phantom.wide] 0) j = Some (Some c) -> c <= mx) /\
      (mx = 0 \/
       exists j,
         nth_error (pass_bids (C := Phantom.collaborators) Phantom.settings
                      [Phantom.bare; Phantom.wide] 0) j = Some (Some mx)).
Proof.
  eexists. split; [vm_compute; reflexivity|].
  apply (@max_added_fraction_is_largest_bid Phantom.collaborators Phantom.settings
           [Phantom.bare; Phantom.wide]).
  - vm_compute. reflexivity.
  - repeat constructor; simpl; intuition discriminate.
  - simpl. auto.
  - vm_compute. lia.
Defined.

(** X4. With distinct property keys, the segmentation key among them: a tie
    goes to the structure processed first.  If the bid of a structure for a
    voxel is strictly greater than every bid made before it and at least as
    great as every bid made after it, the voxel ends with the label of that
    structure. *)
Theorem segmentation_tie_goes_to_first
    {C : Collaborators} (gs : global_settings) (structures : list structure)
    (st : state) (j : nat) (S : structure) (label : Q) (i : nat) (c : Q) :
  composite gs structures = Ok st ->
  NoDup (property_tags gs) ->
  In DATA_FIELD_SEGMENTATION (property_tags gs) ->
  nth_error structures j = Some S ->
  properties_for_wavelength S gs (WAVELENGTH gs) DATA_FIELD_SEGMENTATION
    = PScalar label ->
  nth_error (pass_bids gs structures i) j = Some (Some c) ->
  (forall j' c', (j' < j)%nat ->
     nth_error (pass_bids gs structures i) j' = Some (Some c') -> c' < c) ->
  (forall j' c', (j < j')%nat ->
     nth_error (pass_bids gs structures i) j' = Some (Some c') -> c' <= c) ->
  field_at DATA_FIELD_SEGMENTATION (volumes st) i = Some label.
Proof.
  intros H Hnd Hkey HS Hlab Hj Hbefore Hafter.
  apply composite_ok in H. destruct H as (st0 & H0 & Hpass).
  unfold pass_bids in Hj, Hbefore, Hafter. rewrite H0 in Hj, Hbefore, Hafter.
  assert (Hi : (i < voxels gs)%nat)
    by (eapply bids_in_range;
        [exact (initial_state_shape _ H0) | exact Hpass | exact Hj]).
  assert (Hc : 0 < c) by (eapply bids_positive; [exact Hpass | exact Hj]).
  edestruct initial_segmentation as (Hn & Hnd0 & Hl & Hm);
    [exact H0 | exact Hnd | exact Hkey | exact Hi |].
  eapply segmentation_first_maximum with (mx := 0) (old := 0); eassumption.
Qed.

Lemma segmentation_tie_goes_to_first_witness :
  exists st,
    composite (C := Phantom.collaborators) Phantom.settings
      [Phantom.bare; Phantom.twin] = Ok st /\
    field_at "seg"%string (volumes st) 0 = Some 3.
Proof.
  eexists. split; [vm_compute; reflexivity|].
  assert (Hnd : NoDup (property_tags (Collaborators := Phantom.collaborators)
                         Phantom.settings))
    by (repeat constructor; simpl; intuition discriminate).
  apply (@segmentation_tie_goes_to_first Phantom.collaborators Phantom.settings
           [Phantom.bare; Phantom.twin] _ 0%nat Phantom.bare 3 0%nat (3 # 10)).
  - vm_compute. reflexivity.
  - exact Hnd.
  - simpl. auto.
  - reflexivity.
  - reflexivity.
  - vm_compute. reflexivity.
  - intros j' c' Hlt. lia.
  - intros [|[|j']] c' Hlt H; vm_compute in H.
    + lia.
    + inversion H. vm_compute. discriminate.
    + destruct j'; discriminate.
Defined.

(** X5. With distinct property keys, the segmentation key among them: after
    the pass the segmentation field holds, at every voxel of the grid, the
    0 it was allocated with or the label of one of the structures of the
    pass; labels are never blended. *)
Theorem segmentation_label_is_a_structure_label
    {C : Collaborators} (gs : global_settings) (structures : list structure)
    (st : state) (i : nat) :
  composite gs structures = Ok st ->
  NoDup (property_tags gs) ->
  In DATA_FIELD_SEGMENTATION (property_tags gs) ->
  (i < voxels gs)%nat ->
  exists label,
    field_at DATA_FIELD_SEGMENTATION (volumes st) i = Some label /\
    (label = 0 \/
     exists S, In S structures /\
       properties_for_wavelength S gs (WAVELENGTH gs) DATA_FIELD_SEGMENTATION
         = PScalar label).
Proof.
  intros H Hnd Hkey Hi. apply composite_ok in H. destruct H as (st0 & H0 & Hpass).
  edestruct initial_segmentation as (Hn & Hnd0 & Hl & Hm);
    [exact H0 | exact Hnd | exact Hkey | exact Hi |].
  eapply segmentation_label_origin; eassumption.
Qed.

Lemma segmentation_label_is_a_structure_label_witness :
  exists label,
    field_at "seg"%string (volumes Phantom.after_AB) 0 = Some label /\
    (label = 0 \/
     exists S, In S [Phantom.A; Phantom.B] /\
       properties_for_wavelength S Phantom.settings (WAVELENGTH Phantom.settings)
         "seg"%string = PScalar label).
Proof.
  apply (@segmentation_label_is_a_structure_label Phantom.collaborators
           Phantom.settings [Phantom.A; Phantom.B] Phantom.after_AB 0%nat).
  - vm_compute. reflexivity.
  - repeat constructor; simpl; intuition discriminate.
  - simpl. auto.
  - vm_compute. lia.
Defined.

(** ** Continuous fields *)

Section ContinuousFacts.

Variable segmentation_key : key.
Variable structure_properties : key -> prop_value.
Variable m : mask.
Variable avf : tensor.

(** Lines 98-102 at one voxel: an absent property writes nothing, any other
    adds the claimed fraction times the value of the property there, in the
    mask only. *)
Lemma update_field_continuous_at k t maf t' maf' i v b a :
  k <> segmentation_key ->
  length avf = length m -> length t = length m ->
  update_field segmentation_key structure_properties m avf k t maf = Ok (t', maf') ->
  nth_error t i = Some v -> nth_error m i = Some b -> nth_error avf i = Some a ->
  (structure_properties k = PNone /\ nth_error t' i = Some v) \/
  (exists c, property_at (structure_properties k) i = Some c /\
             nth_error t' i = Some (if b then v + a * c else v)).
Proof.
  intros Hk Ha Ht H Hv Hb Hav. apply String.eqb_neq in Hk.
  unfold update_field in H. rewrite Hk in H.
  destruct (structure_properties k) as [|p|c|ty]; inv_ok.
  - left. auto.
  - destruct (Nat.eqb (length p) (length m)) eqn:Ep; inv_ok.
    apply Nat.eqb_eq in Ep.
    assert (Hi : (i < length m)%nat) by (apply nth_error_Some; congruence).
    destruct (nth_error p i) as [c|] eqn:Ec;
      [|apply nth_error_None in Ec; lia].
    right. exists c. split; [exact Ec|].
    rewrite <- masked_select_zipWith by congruence.
    rewrite add_weighted_where by (rewrite ?length_zipWith; congruence).
    rewrite nth_error_tensor_where, Hb, Hv, !nth_error_zipWith, Hv, Hav, Ec.
    reflexivity.
  - right. exists c. split; [reflexivity|].
    rewrite <- masked_select_map.
    rewrite add_weighted_where by (rewrite ?length_map; congruence).
    rewrite nth_error_tensor_where, Hb, Hv, nth_error_zipWith, Hv.
    rewrite nth_error_map, Hav. reflexivity.
Qed.

(** The field under a key other than the segmentation key after the key
    loop is what [update_field] makes of the field before. *)
Lemma accumulate_continuous_field k vols maf vols' maf' t :
  k <> segmentation_key ->
  field k vols = Some t ->
  accumulate segmentation_key structure_properties m avf vols maf = Ok (vols', maf') ->
  exists t' maf0 maf1,
    update_field segmentation_key structure_properties m avf k t maf0 = Ok (t', maf1) /\
    field k vols' = Some t'.
Proof.
  intros Hk. revert maf vols'.
  induction vols as [|[k0 t0] rest IH]; intros maf vols' Hf H.
  - discriminate Hf.
  - apply accumulate_cons in H.
    destruct H as (t' & maf1 & rest' & H1 & H2 & ->).
    simpl in *. destruct (String.eqb_spec k k0) as [<-|Hne].
    + injection Hf as ->. eauto.
    + eapply IH; eassumption.
Qed.

End ContinuousFacts.

(** One structure, at one voxel, for a field other than the segmentation. *)
Lemma continuous_step segmentation_key gs n st S st' k i v g sv :
  grid_shaped n st ->
  compose_structure segmentation_key gs st S = Ok st' ->
  k <> segmentation_key ->
  field_at k (volumes st) i = Some v ->
  nth_error (global_volume_fractions st) i = Some g ->
  nth_error (geometrical_volume S) i = Some sv ->
  (properties_for_wavelength S gs (WAVELENGTH gs) k = PNone /\
   field_at k (volumes st') i = Some v) \/
  (exists c,
     property_at (properties_for_wavelength S gs (WAVELENGTH gs) k) i = Some c /\
     field_at k (volumes st') i
       = Some (if active g sv then v + claimed g sv * c else v)).
Proof.
  intros (Hgn & Hmn & Hvn) Hstep Hk Hv Hg Hs.
  apply compose_structure_ok in Hstep. destruct Hstep as (Hlen & Hacc & _).
  unfold field_at in Hv.
  destruct (field k (volumes st)) as [t|] eqn:Ef; [|discriminate].
  assert (Ht : length t = n).
  { clear - Ef Hvn. induction (volumes st) as [|[k0 t0] vols IH]; [discriminate|].
    apply Forall_cons_iff in Hvn. destruct Hvn as [H0 Hrest]. simpl in *.
    destruct (String.eqb k k0); [injection Ef as <-; assumption | auto]. }
  edestruct accumulate_continuous_field as (t' & maf0 & maf1 & Hupd & Ef');
    [exact Hk | exact Ef | exact Hacc |].
  unfold field_at. rewrite Ef'.
  eapply update_field_continuous_at with (i := i) in Hupd;
    [ exact Hupd | exact Hk | | | exact Hv
    | apply nth_error_active_mask; eassumption
    | apply nth_error_added_volume_fraction; eassumption ].
  - rewrite added_volume_fraction_pointwise, length_zipWith, length_active_mask;
      congruence.
  - rewrite length_active_mask; congruence.
Qed.

(** X7. Where one structure alone has a positive occupancy, the fields hold
    its share.  If at a voxel every other structure of the pass has no
    positive occupancy and the structure [S] has an occupancy [sv] with
    [0 < sv <= 1], then after the pass the cumulative occupancy there is
    [0 + sv], and the field of a property other than the segmentation, for
    which [S] has the value [c] there, holds [0 + sv * c]. *)
Theorem lone_structure_contributes_its_share
    {C : Collaborators} (gs : global_settings) (pre post : list structure)
    (S : structure) (st : state) (k : key) (i : nat) (sv c : Q) :
  composite gs (pre ++ S :: post) = Ok st ->
  k <> DATA_FIELD_SEGMENTATION ->
  In k (property_tags gs) ->
  (forall S' sv', In S' (pre ++ post) ->
     nth_error (geometrical_volume S') i = Some sv' -> sv' <= 0) ->
  nth_error (geometrical_volume S) i = Some sv ->
  0 < sv <= 1 ->
  property_at (properties_for_wavelength S gs (WAVELENGTH gs) k) i = Some c ->
  nth_error (global_volume_fractions st) i = Some (0 + sv) /\
  field_at k (volumes st) i = Some (0 + sv * c).
Proof.
  intros H Hk Hkey Hothers HS Hsv Hc.
  apply composite_app in H. destruct H as (st1 & Hpre & HSpost).
  apply compose_cons in HSpost. destruct HSpost as (st2 & HstepS & Hpost).
  pose proof (composite_shape _ _ Hpre) as Hn1.
  assert (Hn2 : grid_shaped (voxels gs) st2)
    by (eapply compose_structure_shape; eassumption).
  assert (Hi : (i < voxels gs)%nat).
  { pose proof HstepS as Hlen. apply compose_structure_ok in Hlen.
    destruct Hlen as (Hlen & _ & _). destruct Hn1 as (Hgn & _).
    rewrite <- Hgn, <- Hlen. apply nth_error_Some. congruence. }
  apply composite_ok in Hpre. destruct Hpre as (st0 & H0 & Hpre).
  pose proof (initial_state_shape _ H0) as Hn0.
  apply initial_state_ok in H0. destruct H0 as (Hv0 & Hg0 & _).
  (* the structures before [S] leave the voxel at zero *)
  edestruct compose_inactive with (i := i) (g := 0) (later := pre)
    as (Hg1 & _ & Hview1);
    [ exact Hn0 | exact Hpre | rewrite Hg0; apply nth_error_zeros; exact Hi | | ].
  { intros S' sv' HS' Hsv'. apply active_empty.
    apply (Hothers S' sv'); [apply in_or_app; auto | exact Hsv']. }
  assert (Hf1 : field_at k (volumes st1) i = Some 0).
  { rewrite (field_at_view _ _ _ _ Hview1). unfold field_at.
    rewrite Hv0, (field_allocated _ _ _ Hkey). apply nth_error_zeros. exact Hi. }
  (* [S] claims its occupancy *)
  assert (Ha : active 0 sv = true) by (apply active_true_iff; lra).
  assert (Hcl : claimed 0 sv = sv) by (apply claimed_fits; auto; lra).
  assert (Hg2 : nth_error (global_volume_fractions st2) i = Some (0 + sv)).
  { erewrite compose_structure_occupancy; [|exact HstepS|exact Hg1|exact HS].
    unfold occupy. rewrite Ha, Hcl. reflexivity. }
  assert (Hf2 : field_at k (volumes st2) i = Some (0 + sv * c)).
  { edestruct continuous_step as [(Hnone & _)|(c' & Hc' & Hf)];
      [exact Hn1 | exact HstepS | exact Hk | exact Hf1 | exact Hg1 | exact HS | | ].
    - rewrite Hnone in Hc. discriminate.
    - rewrite Hc in Hc'. injection Hc' as <-. rewrite Ha, Hcl in Hf. exact Hf. }
  (* the structures after [S] leave the voxel as it is *)
  edestruct compose_inactive with (i := i) (g := 0 + sv) (later := post)
    as (Hg3 & _ & Hview3);
    [ exact Hn2 | exact Hpost | exact Hg2 | | ].
  { intros S' sv' HS' Hsv'. apply active_empty.
    apply (Hothers S' sv'); [apply in_or_app; auto | exact Hsv']. }
  split; [exact Hg3|].
  rewrite (field_at_view _ _ _ _ Hview3). exact Hf2.
Qed.

Lemma lone_structure_contributes_its_share_witness :
  exists st,
    composite (C := Phantom.collaborators) Phantom.settings
      ([Phantom.bare] ++ Phantom.layer [0; 1 # 2] (PScalar 5) (PScalar 8)
         :: [Phantom.bare]) = Ok st /\
    nth_error (global_volume_fractions st) 1 = Some (0 + (1 # 2)) /\
    field_at "mua"%string (volumes st) 1 = Some (0 + (1 # 2) * 8).
Proof.
  eexists. split; [vm_compute; reflexivity|].
  apply (@lone_structure_contributes_its_share Phantom.collaborators
           Phantom.settings [Phantom.bare] [Phantom.bare]
           (Phantom.layer [0; 1 # 2] (PScalar 5) (PScalar 8)) _
           "mua"%string 1%nat (1 # 2) 8).
  - vm_compute. reflexivity.
  - discriminate.
  - simpl. auto.
  - intros S' sv' [<-|[<-|[]]] H; vm_compute in H; inversion H;
      vm_compute; discriminate.
  - reflexivity.
  - split; vm_compute; [reflexivity | discriminate].
  - reflexivity.
Defined.

(** ** Structures that claim nothing *)

Lemma masked_assign_none {A : Type} (t : list A) (m : mask) (v : list A) :
  any m = false -> masked_assign t m v = t.
Proof.
  revert m v. induction t as [|x t IH]; intros [|b m] v H; simpl in *; auto.
  apply orb_false_iff in H. destruct H as [-> H]. f_equal. auto.
Qed.

Lemma masked_fill_none {A : Type} (t : list A) (m : mask) (c : A) :
  any m = false -> masked_fill t m c = t.
Proof.
  revert m. induction t as [|x t IH]; intros [|b m] H; simpl in *; auto.
  apply orb_false_iff in H. destruct H as [-> H]. f_equal. auto.
Qed.

Lemma any_and_none (a m : mask) : any m = false -> any (zipWith andb a m) = false.
Proof.
  revert m. induction a as [|x a IH]; intros [|b m] H; simpl in *; auto.
  apply orb_false_iff in H. destruct H as [-> H].
  rewrite andb_false_r. simpl. auto.
Qed.

Lemma update_field_none segmentation_key structure_properties m avf k t maf t' maf' :
  any m = false ->
  update_field segmentation_key structure_properties m avf k t maf = Ok (t', maf') ->
  t' = t /\ maf' = maf.
Proof.
  intros Hm H. unfold update_field, add_weighted, segmentation_selector in H.
  destruct (structure_properties k) as [|p|c|ty]; inv_ok; auto;
    destruct (String.eqb k segmentation_key); inv_ok;
    try (destruct (Nat.eqb (length p) (length m)); inv_ok);
    rewrite ?masked_assign_none, ?masked_fill_none
      by (assumption || apply any_and_none; assumption);
    auto.
Qed.

Lemma accumulate_none segmentation_key structure_properties m avf vols maf vols' maf' :
  any m = false ->
  accumulate segmentation_key structure_properties m avf vols maf = Ok (vols', maf') ->
  vols' = vols /\ maf' = maf.
Proof.
  intros Hm. revert maf vols'.
  induction vols as [|[k t] rest IH]; intros maf vols' H.
  - simpl in H. inv_ok. auto.
  - apply accumulate_cons in H.
    destruct H as (t' & maf1 & rest' & H1 & H2 & ->).
    apply update_field_none in H1; [|assumption]. destruct H1 as [-> ->].
    apply IH in H2. destruct H2 as [-> ->]. auto.
Qed.

Lemma active_mask_none gvf svf :
  Forall2 (fun g sv => sv <= 0 \/ 1 <= g) gvf svf ->
  any (active_mask gvf svf) = false.
Proof.
  rewrite active_mask_pointwise.
  induction 1 as [|g sv gvf svf H _ IH]; simpl; [reflexivity|].
  rewrite IH, orb_false_r.
  destruct H as [H|H]; [apply active_empty | apply active_closed]; assumption.
Qed.

(** X8. A structure that is processed without error and has, at every voxel,
    no positive occupancy or no room left (the cumulative occupancy there is
    1 or more) changes nothing: the property fields, the cumulative occupancy
    and the maximum applied fractions are the same tensors afterwards.  So
    once every voxel is full, all later structures are without effect. *)
Theorem structure_without_mask_changes_nothing
    (segmentation_key : key) (gs : global_settings) (st st' : state)
    (S : structure) :
  compose_structure segmentation_key gs st S = Ok st' ->
  Forall2 (fun g sv => sv <= 0 \/ 1 <= g)
    (global_volume_fractions st) (geometrical_volume S) ->
  st' = st.
Proof.
  intros H Hmask. apply active_mask_none in Hmask.
  unfold compose_structure in H.
  destruct (Nat.eqb _ _); [|discriminate].
  apply bind_ok in H. destruct H as ([vols maf] & Hacc & H). inv_ok.
  apply accumulate_none in Hacc; [|assumption]. destruct Hacc as [-> ->].
  rewrite masked_assign_none by assumption.
  destruct st; reflexivity.
Qed.

Lemma structure_without_mask_changes_nothing_witness :
  Phantom.after_AB = Phantom.after_AB.
Proof.
  apply (@structure_without_mask_changes_nothing "seg"%string Phantom.settings
           Phantom.after_AB Phantom.after_AB Phantom.wide).
  - vm_compute. reflexivity.
  - repeat constructor; vm_compute; discriminate.
Defined.

(** ** The deformation settings *)





(** ** Nothing is taken back *)

Lemma occupy_grows g s : g <= occupy g s.
Proof.
  unfold occupy. destruct (active g s) eqn:Ha; [|apply Qle_refl].
  pose proof (claimed_positive g s Ha). lra.
Qed.

Lemma update_field_maximum_grows segmentation_key structure_properties m avf
    k t maf t' maf' i x :
  length avf = length m -> length maf = length m ->
  update_field segmentation_key structure_properties m avf k t maf = Ok (t', maf') ->
  nth_error maf i = Some x ->
  exists x', nth_error maf' i = Some x' /\ x <= x'.
Proof.
  intros Ha Hx H Hi. unfold update_field in H.
  assert (Hkeep : exists x', nth_error maf i = Some x' /\ x <= x')
    by (exists x; split; [assumption | apply Qle_refl]).
  destruct (structure_properties k) as [|p|c|ty]; inv_ok; auto;
    destruct (String.eqb k segmentation_key); inv_ok;
    try (destruct (Nat.eqb (length p) (length m)); inv_ok); auto.
  rewrite masked_assign_select
    by (rewrite ?length_segmentation_selector; congruence).
  assert (Hlt : (i < length m)%nat)
    by (rewrite <- Hx; apply nth_error_Some; congruence).
  destruct (nth_error avf i) as [a|] eqn:Ea;
    [|apply nth_error_None in Ea; lia].
  destruct (nth_error m i) as [b|] eqn:Eb;
    [|apply nth_error_None in Eb; lia].
  rewrite nth_error_tensor_where, nth_error_segmentation_selector, Ea, Hi, Eb.
  destruct (Qlt_bool x a) eqn:E; destruct b; simpl;
    eexists; (split; [reflexivity|]); try apply Qle_refl.
  apply Qlt_bool_iff in E. lra.
Qed.

Lemma accumulate_maximum_grows segmentation_key structure_properties m avf
    vols maf vols' maf' i x :
  length avf = length m -> length maf = length m ->
  accumulate segmentation_key structure_properties m avf vols maf = Ok (vols', maf') ->
  nth_error maf i = Some x ->
  exists x', nth_error maf' i = Some x' /\ x <= x'.
Proof.
  intros Ha. revert maf x vols'.
  induction vols as [|[k t] rest IH]; intros maf x vols' Hx H Hi.
  - simpl in H. inv_ok. exists x. split; [assumption | apply Qle_refl].
  - apply accumulate_cons in H.
    destruct H as (t' & maf1 & rest' & H1 & H2 & ->).
    pose proof H1 as Hlen. apply update_field_length in Hlen.
    destruct Hlen as [_ Hlen].
    eapply update_field_maximum_grows in H1; [|exact Ha|exact Hx|exact Hi].
    destruct H1 as (x1 & Hx1 & Hle1).
    eapply IH in H2; [|congruence|exact Hx1].
    destruct H2 as (x' & Hx' & Hle'). exists x'. split; [assumption|lra].
Qed.

Lemma compose_grows segmentation_key gs n structures st st' i g x :
  grid_shaped n st ->
  compose segmentation_key gs st structures = Ok st' ->
  nth_error (global_volume_fractions st) i = Some g ->
  nth_error (max_added_fractions st) i = Some x ->
  exists g' x',
    nth_error (global_volume_fractions st') i = Some g' /\
    nth_error (max_added_fractions st') i = Some x' /\
    g <= g' /\ x <= x'.
Proof.
  revert st g x. induction structures as [|S rest IH]; intros st g x Hn H Hg Hx.
  - simpl in H. inv_ok. exists g, x. repeat split; auto; apply Qle_refl.
  - apply compose_cons in H. destruct H as (st1 & H1 & H).
    assert (Hn1 : grid_shaped n st1) by (eapply compose_structure_shape; eassumption).
    pose proof H1 as Hok. apply compose_structure_ok in Hok.
    destruct Hok as (Hlen & Hacc & _). destruct Hn as (Hgn & Hmn & _).
    destruct (nth_error (geometrical_volume S) i) as [sv|] eqn:Es.
    2:{ apply nth_error_None in Es.
        assert (Hne : nth_error (global_volume_fractions st) i <> None) by congruence.
        apply nth_error_Some in Hne. lia. }
    pose proof H1 as Hg1.
    eapply compose_structure_occupancy in Hg1; [|exact Hg|exact Es].
    eapply accumulate_maximum_grows with (i := i) in Hacc;
      [ | rewrite added_volume_fraction_pointwise, length_zipWith, length_active_mask;
          congruence
        | rewrite length_active_mask; congruence
        | exact Hx ].
    destruct Hacc as (x1 & Hx1 & Hle1).
    destruct (IH st1 _ _ Hn1 H Hg1 Hx1) as (g' & x' & Hg' & Hx' & Hgle & Hxle).
    exists g', x'. pose proof (occupy_grows g sv).
    repeat split; auto; lra.
Qed.

(** X10. Nothing is taken back during a pass: between any two moments of a
    pass, the cumulative occupancy and the maximum applied fraction of a
    voxel can only have grown, whatever the occupancy fields and the
    properties of the structures processed in between. *)
Theorem occupancy_and_maximum_only_grow
    {C : Collaborators} (gs : global_settings) (pre post : list structure)
    (st st' : state) (i : nat) (g x : Q) :
  composite gs pre = Ok st ->
  composite gs (pre ++ post) = Ok st' ->
  nth_error (global_volume_fractions st) i = Some g ->
  nth_error (max_added_fractions st) i = Some x ->
  exists g' x',
    nth_error (global_volume_fractions st') i = Some g' /\
    nth_error (max_added_fractions st') i = Some x' /\
    g <= g' /\ x <= x'.
Proof.
  intros Hpre Hall Hg Hx.
  apply composite_app in Hall. destruct Hall as (st1 & Hpre' & Hpost).
  rewrite Hpre in Hpre'. inv_ok.
  eapply compose_grows; try eassumption.
  eapply composite_shape; eassumption.
Qed.

Lemma occupancy_and_maximum_only_grow_witness :
  exists g' x',
    nth_error (global_volume_fractions Phantom.after_AB) 0 = Some g' /\
    nth_error (max_added_fractions Phantom.after_AB) 0 = Some x' /\
    6 # 10 <= g' /\ 6 # 10 <= x'.
Proof.
  apply (@occupancy_and_maximum_only_grow Phantom.collaborators Phantom.settings
           [Phantom.A] [Phantom.B] Phantom.after_A Phantom.after_AB 0%nat
           (6 # 10) (6 # 10));
    vm_compute; reflexivity.
Defined.
